(** * Custom ETL notebook (notebooks/02-custom-etl.ipynb)

    A shallow embedding of the notebook: its six task functions, their
    deferred wrappers, the graph-building cells, and the submission of the
    terminal deferred value to an executor.

    Python is modelled as a state-and-exception monad over a [world] that
    holds the deferred nodes created so far, the state of the [random]
    module and the time spent in [sleep]. *)

From Stdlib Require Import QArith.
From stdpp Require Import base list gmap sets strings relations.
From Stdlib Require Import DecimalString DecimalNat.

Set Warnings "-register-all".
Local Open Scope nat_scope.

(** ** Python values and exceptions *)

Inductive pyval :=
| VNone
| VStr (s : string)
| VList (items : list pyval).

Inductive pyexn :=
| IndexError
| TypeError
| TaskError (msg : string).

Inductive result (A : Type) :=
| Return (a : A)
| Raise (e : pyexn).
Arguments Return {A} a.
Arguments Raise {A} e.

(** ** Deferred nodes *)

(** The six functions of the notebook, as identities recorded in a node. *)
Inductive func := Load | Load_from_sql | Process | Roll | Compare | Reduction.

Global Instance func_eq_dec : EqDecision func.
Proof. solve_decision. Defined.

(** A deferred value is named by its key; keys are handed out in creation
    order, so the key of a node is its index in the heap. *)
Abbreviation key := nat (only parsing).

(** An argument of a wrapped call: a concrete value, a deferred value, or an
    ordinary list of arguments (the list passed to [reduction]). *)
Inductive arg :=
| Concrete (v : pyval)
| Deferred (d : key)
| Container (items : list arg).

Record node := Node { fn : func; args : list arg }.

(** Deferred values found in an argument, left to right, with repetitions. *)
Fixpoint arg_deps (a : arg) : list key :=
  match a with
  | Concrete _ => []
  | Deferred d => [d]
  | Container items => flat_map arg_deps items
  end.

Definition node_deps (n : node) : list key := flat_map arg_deps (args n).

(** The spec's wording of "occurs among the arguments, also inside ordinary
    containers", as an inductive predicate. *)
Inductive occurs (d : key) : arg -> Prop :=
| occurs_here : occurs d (Deferred d)
| occurs_inside items a : a ∈ items -> occurs d a -> occurs d (Container items).

(** ** The interpreter state *)

Record world := World {
  heap : list node;          (* deferred nodes, by key *)
  entropy : nat -> nat;      (* the raw draws of the random module *)
  draws : nat;               (* how many draws were consumed *)
  slept : Q                  (* total time spent in sleep *)
}.

Definition py (A : Type) : Type := world -> result A * world.

Definition ret {A} (a : A) : py A := fun w => (Return a, w).

Definition raise {A} (e : pyexn) : py A := fun w => (Raise e, w).

Definition bind {A B} (m : py A) (k : A -> py B) : py B :=
  fun w =>
    match m w with
    | (Return a, w') => k a w'
    | (Raise e, w') => (Raise e, w')
    end.

Notation "x <- m ;; k" := (bind m (fun x => k))
  (at level 100, m at next level, right associativity).

(** [random.random()]: a 53-bit fraction in [0, 1). *)
Definition random : py Q :=
  fun w =>
    (Return (Qmake (Z.of_nat (entropy w (draws w)) mod 2 ^ 53) (2 ^ 53)),
     World (heap w) (entropy w) (S (draws w)) (slept w)).

(** [time.sleep(t)] *)
Definition sleep (t : Q) : py unit :=
  fun w => (Return tt, World (heap w) (entropy w) (draws w) (slept w + t)%Q).

(** [random.choice(seq)]: a uniformly drawn element; IndexError on an empty
    sequence, raised before any draw is consumed. *)
Definition choice {A} (seq : list A) : py A :=
  fun w =>
    match seq !! (entropy w (draws w) mod length seq) with
    | Some x => (Return x, World (heap w) (entropy w) (S (draws w)) (slept w))
    | None => (Raise IndexError, w)
    end.

(** [seq[i]] for a non-negative index. *)
Definition getitem {A} (seq : list A) (i : nat) : py A :=
  match seq !! i with
  | Some x => ret x
  | None => raise IndexError
  end.

(** [[f(x) for x in xs]] *)
Fixpoint comprehension {A B} (f : A -> py B) (xs : list A) : py (list B) :=
  match xs with
  | [] => ret []
  | x :: xs' => y <- f x ;; ys <- comprehension f xs' ;; ret (y :: ys)
  end.

(** [for x in xs: body], threading the local that the body updates. *)
Fixpoint for_each {A S} (xs : list A) (body : A -> S -> py S) (acc : S) : py S :=
  match xs with
  | [] => ret acc
  | x :: xs' => acc' <- body x acc ;; for_each xs' body acc'
  end.

(** [range(n)]. Where the notebook writes [range(len(processed) - 2)] the
    difference is taken in [nat]: it is 0 where Python's is negative, and
    both ranges are then empty. *)
Definition range (n : nat) : list nat := seq 0 n.

(** ** Cell 2: the plain task functions *)

Module Plain.

Definition load (address : pyval) : py pyval :=
  u <- random ;; _ <- sleep (u / 2)%Q ;; ret VNone.

Definition load_from_sql (address : pyval) : py pyval :=
  u <- random ;; _ <- sleep (u / 2 + (1 # 2))%Q ;; ret VNone.

Definition process (data reference : pyval) : py pyval :=
  u <- random ;; _ <- sleep (u / 2)%Q ;; ret VNone.

Definition roll (a b c : pyval) : py pyval :=
  u <- random ;; _ <- sleep (u / 5)%Q ;; ret VNone.

Definition compare (a b : pyval) : py pyval :=
  u <- random ;; _ <- sleep (u / 10)%Q ;; ret VNone.

Definition reduction (seq : pyval) : py pyval :=
  u <- random ;; _ <- sleep (u / 1)%Q ;; ret VNone.

End Plain.

(** Calling the function a node records on a tuple of values; a tuple of the
    wrong length is a TypeError, as for any Python call. *)
Definition call (f : func) (vals : list pyval) : py pyval :=
  match f, vals with
  | Load, [address] => Plain.load address
  | Load_from_sql, [address] => Plain.load_from_sql address
  | Process, [data; reference] => Plain.process data reference
  | Roll, [a; b; c] => Plain.roll a b c
  | Compare, [a; b] => Plain.compare a b
  | Reduction, [seq] => Plain.reduction seq
  | _, _ => raise TypeError
  end.

(** ** Cell 4: the deferred wrappers *)

(** Modelled from the spec: [dask.delayed] is imported, not defined, by the
    notebook. Per the spec (4.1) a call of the wrapper executes nothing and
    returns a new deferred value recording the function and its arguments;
    the new value gets the next unused key. *)
Definition delayed (f : func) (actuals : list arg) : py key :=
  fun w =>
    (Return (length (heap w)),
     World (heap w ++ [Node f actuals]) (entropy w) (draws w) (slept w)).

Definition load := delayed Load.
Definition load_from_sql := delayed Load_from_sql.
Definition process := delayed Process.
Definition roll := delayed Roll.
Definition compare := delayed Compare.
Definition reduction := delayed Reduction.

(** ** Cells 5 and 9: building the graph *)

(** ['mydata-%d.dat' % i for i in range(n)] *)
Definition filenames (n : nat) : list string :=
  map (fun i => "mydata-" +:+ NilEmpty.string_of_uint (Nat.to_uint i) +:+ ".dat")
      (range n).

(** The names a graph-building cell binds. *)
Record cell := Cell {
  data : list key;
  reference : key;
  processed : list key;
  rolled : list key;
  compared : list key;
  best : key
}.

Definition roll_window (processed : list key) (i : nat) (rolled : list key)
  : py (list key) :=
  a <- getitem processed i ;;
  b <- getitem processed (i + 1) ;;
  c <- getitem processed (i + 2) ;;
  r <- roll [Deferred a; Deferred b; Deferred c] ;;
  ret (rolled ++ [r]).

Definition compare_pair (rolled : list key) (i : nat) (compared : list key)
  : py (list key) :=
  a <- choice rolled ;;
  b <- choice rolled ;;
  c <- compare [Deferred a; Deferred b] ;;
  ret (compared ++ [c]).

(** The body shared by cell 5 and cell 9; they differ in the number of files
    and of sampled pairs only. [rolled.append(r)] and [compared.append(c)]
    are the updates of the loop-carried lists. *)
Definition etl (files : list string) (sql : string) (npairs : nat) : py cell :=
  data <- comprehension (fun fname => load [Concrete (VStr fname)]) files ;;
  reference <- load_from_sql [Concrete (VStr sql)] ;;
  processed <- comprehension
                 (fun d => process [Deferred d; Deferred reference]) data ;;
  rolled <- for_each (range (length processed - 2)) (roll_window processed) [] ;;
  compared <- for_each (range npairs) (compare_pair rolled) [] ;;
  best <- reduction [Container (map Deferred compared)] ;;
  ret (Cell data reference processed rolled compared best).

Abbreviation cell5 := (etl (filenames 10) "sql://mytable" 20).
Abbreviation cell9 := (etl (filenames 100) "sql://mytable" 200).

(** ** Dependencies *)

(** [depends h k j]: node [k] consumes the deferred value [j]. *)
Definition depends (h : list node) (k j : key) : Prop :=
  exists n, h !! k = Some n /\ j ∈ node_deps n.

(** The dependency set of a deferred value. *)
Definition dependencies (h : list node) (k : key) : gset key :=
  match h !! k with
  | Some n => list_to_set (node_deps n)
  | None => ∅
  end.

Definition acyclic (h : list node) : Prop := forall k, ~ tc (depends h) k k.

(** Heaps obtained by calling wrappers on arguments whose deferred values
    already exist: the only way Python code can obtain a deferred value is
    from an earlier wrapper call. *)
Inductive composed : list node -> Prop :=
| composed_nil : composed []
| composed_call h f actuals :
    composed h ->
    (forall d, d ∈ flat_map arg_deps actuals -> d < length h) ->
    composed (h ++ [Node f actuals]).

(** A fresh kernel, with the given source of randomness. *)
Definition fresh (e : nat -> nat) : world := World [] e 0 0.

(** Deferred values are only ever passed to later calls: every dependency of
    a node has a smaller key. The boolean version evaluates on a concrete
    heap. *)
Definition ordered (h : list node) : Prop :=
  forall k n, h !! k = Some n -> forall d, d ∈ node_deps n -> d < k.

Definition orderedb (h : list node) : bool :=
  forallb (fun kn => forallb (fun d => d <? fst kn) (node_deps (snd kn)))
          (imap (fun k n => (k, n)) h).

(** Number of parameters of each task function. *)
Definition arity (f : func) : nat :=
  match f with
  | Load | Load_from_sql | Reduction => 1
  | Process | Compare => 2
  | Roll => 3
  end.

Definition well_called (h : list node) : Prop :=
  forall k n, h !! k = Some n -> length (args n) = arity (fn n).

Definition well_calledb (h : list node) : bool :=
  forallb (fun n => length (args n) =? arity (fn n)) h.

(** ** The dependency graph of a terminal deferred value *)

Definition in_graph (h : list node) (t k : key) : Prop := rtc (depends h) t k.

(** The keys of the graph of [t], in increasing order. One pass from [t] down
    to key 0 suffices because dependencies have smaller keys. [wanted] holds
    the keys known to be reachable. *)
Fixpoint reach_down (h : list node) (k : nat) (wanted : list key) : list key :=
  match k with
  | 0 => []
  | S k' =>
      if bool_decide (k' ∈ wanted)
      then reach_down h k'
             (match h !! k' with Some n => node_deps n | None => [] end ++ wanted)
           ++ [k']
      else reach_down h k' wanted
  end.

Definition reach (h : list node) (t : key) : list key := reach_down h (S t) [t].

(** ** Cell 7: submitting the graph *)

(** Modelled from the spec: the executor is external, so its observable
    behaviour is taken from the spec (4.2, 7). A node resolves to the value
    its function returned, or to the error of the task that failed, with the
    key of that task. *)
Inductive outcome :=
| Finished (v : pyval)
| Erred (origin : key) (e : pyexn).

Inductive event :=
| Started (k : key)
| Resolved (k : key) (o : outcome).

(** A trace lists the events of one submission, newest first. *)
Definition trace := list event.

Definition event_key (ev : event) : key :=
  match ev with Started k => k | Resolved k _ => k end.

Fixpoint started (tr : trace) (k : key) : bool :=
  match tr with
  | [] => false
  | Started j :: tr' => (j =? k) || started tr' k
  | Resolved _ _ :: tr' => started tr' k
  end.

Fixpoint outcome_of (tr : trace) (k : key) : option outcome :=
  match tr with
  | [] => None
  | Resolved j o :: tr' => if j =? k then Some o else outcome_of tr' k
  | Started _ :: tr' => outcome_of tr' k
  end.

(** How many times the function of node [k] was run. *)
Fixpoint executions (tr : trace) (k : key) : nat :=
  match tr with
  | [] => 0
  | Started j :: tr' => (if j =? k then 1 else 0) + executions tr' k
  | Resolved _ _ :: tr' => executions tr' k
  end.

Fixpoint all_some {A} (l : list (option A)) : option (list A) :=
  match l with
  | [] => Some []
  | Some x :: l' =>
      match all_some l' with Some xs => Some (x :: xs) | None => None end
  | None :: _ => None
  end.

(** The value passed for an argument once its deferred values resolved. *)
Fixpoint arg_value (tr : trace) (a : arg) : option pyval :=
  match a with
  | Concrete v => Some v
  | Deferred d =>
      match outcome_of tr d with
      | Some (Finished v) => Some v
      | _ => None
      end
  | Container items =>
      match all_some (map (arg_value tr) items) with
      | Some vs => Some (VList vs)
      | None => None
      end
  end.

Definition arg_values (tr : trace) (actuals : list arg) : option (list pyval) :=
  all_some (map (arg_value tr) actuals).

(** The first failed dependency, if any. *)
Fixpoint first_erred (tr : trace) (ds : list key) : option (key * pyexn) :=
  match ds with
  | [] => None
  | d :: ds' =>
      match outcome_of tr d with
      | Some (Erred o e) => Some (o, e)
      | _ => first_erred tr ds'
      end
  end.

Definition outcome_of_result (k : key) (r : result pyval) : outcome :=
  match r with
  | Return v => Finished v
  | Raise e => Erred k e
  end.

(** Modelled from the spec: awaiting the future of [k] gives its value,
    raises the error of the originating task (spec, 7), or is still
    pending. *)
Definition await (tr : trace) (k : key) : option (result pyval) :=
  match outcome_of tr k with
  | Some (Finished v) => Some (Return v)
  | Some (Erred _ e) => Some (Raise e)
  | None => None
  end.

Section Executor.

(** What running a task function does on a worker. *)
Variable apply : func -> list pyval -> py pyval.
(** The heap holding the submitted graph, and the terminal value. *)
Variable h : list node.
Variable t : key.

(** Modelled from the spec: [Client.compute] and the scheduler behind it
    are external to the notebook. Per the spec (4.2, 5, 7) a node is run
    only once all its dependencies produced results, at most once per
    submission, on some worker and in no fixed order with respect to
    unrelated nodes; a node with a failed dependency is not run and fails
    with the error of the originating task. *)
Inductive enabled (tr : trace) : event -> Prop :=
| enabled_start k n vals :
    in_graph h t k ->
    h !! k = Some n ->
    started tr k = false ->
    outcome_of tr k = None ->
    arg_values tr (args n) = Some vals ->
    enabled tr (Started k)
| enabled_finish k n vals (worker : world) :
    h !! k = Some n ->
    started tr k = true ->
    outcome_of tr k = None ->
    arg_values tr (args n) = Some vals ->
    enabled tr (Resolved k (outcome_of_result k (apply (fn n) vals worker).1))
| enabled_erred k n j o e :
    in_graph h t k ->
    h !! k = Some n ->
    started tr k = false ->
    outcome_of tr k = None ->
    j ∈ node_deps n ->
    outcome_of tr j = Some (Erred o e) ->
    enabled tr (Resolved k (Erred o e)).

(** The task function of [o] was run on some worker and raised [e]. *)
Definition raised_by (tr : trace) (o : key) (e : pyexn) : Prop :=
  started tr o = true
  /\ outcome_of tr o = Some (Erred o e)
  /\ exists n vals worker,
       h !! o = Some n /\ (apply (fn n) vals worker).1 = Raise e.

(** Modelled from the spec: the traces of one submission of [t]. Every
    submission starts from the empty trace; results of earlier submissions
    are not an input (the spec assumes no implicit caching). *)
Inductive execution : trace -> Prop :=
| execution_nil : execution []
| execution_step tr ev : execution tr -> enabled tr ev -> execution (ev :: tr).

(** The scheduler reports completion when nothing is left to do. *)
Definition quiescent (tr : trace) : Prop := forall ev, ~ enabled tr ev.

Definition complete (tr : trace) : Prop := execution tr /\ quiescent tr.

(** One schedule the executor may follow from the trace reached so far: the
    nodes of the graph that are not yet resolved, in key order, all on one
    worker. *)
Definition run_node (k : key) (st : trace * world) : trace * world :=
  match h !! k, outcome_of st.1 k with
  | Some n, None =>
      match arg_values st.1 (args n) with
      | Some vals =>
          let r := apply (fn n) vals st.2 in
          (Resolved k (outcome_of_result k r.1)
             :: (if started st.1 k then st.1 else Started k :: st.1),
           r.2)
      | None =>
          match first_erred st.1 (node_deps n) with
          | Some (o, e) => (Resolved k (Erred o e) :: st.1, st.2)
          | None => st
          end
      end
  | _, _ => st
  end.

Fixpoint run_upto (n : nat) (st : trace * world) : trace * world :=
  match n with
  | 0 => st
  | S n' =>
      let st' := run_upto n' st in
      if bool_decide (n' ∈ reach h t) then run_node n' st' else st'
  end.

(** Carrying on from [tr] until nothing is left to do. *)
Definition resume (tr : trace) (worker : world) : trace :=
  (run_upto (S t) (tr, worker)).1.

(** A whole submission under this schedule. *)
Definition run (worker : world) : trace := resume [] worker.

End Executor.

(** The events of a trace that concern the nodes selected by [keep]. *)
Definition restrict (keep : key -> bool) (tr : trace) : trace :=
  List.filter (fun ev => keep (event_key ev)) tr.

(** [A] and [B] are unrelated: no dependency path either way. *)
Definition unrelated (h : list node) (a b : key) : Prop :=
  ~ rtc (depends h) a b /\ ~ rtc (depends h) b a.


(** ** What the sampling loop draws *)

(** The element [random.choice] returns at draw number [d]. *)
Definition pick (e : nat -> nat) (pool : list key) (d : nat) : key :=
  nth (e d mod length pool) pool 0.

(** The node of the [j]-th sampled pair, when sampling began at draw [d0]. *)
Definition pair_node (e : nat -> nat) (pool : list key) (d0 j : nat) : node :=
  Node Compare [Deferred (pick e pool (d0 + 2 * j));
                Deferred (pick e pool (d0 + 2 * j + 1))].

Definition load_node (fname : string) : node :=
  Node Load [Concrete (VStr fname)].

Definition process_node (ref d : key) : node :=
  Node Process [Deferred d; Deferred ref].

Definition roll_node (p i : nat) : node :=
  Node Roll [Deferred (p + i); Deferred (p + (i + 1)); Deferred (p + (i + 2))].

(** The names bound and the nodes created by a successful run of [etl] that
    starts with [b] nodes on the heap and at draw [d0]. *)
Definition built_cell (b n m : nat) : cell :=
  Cell (seq b n) (b + n) (seq (b + n + 1) n)
       (seq (b + n + 1 + n) (n - 2))
       (seq (b + n + 1 + n + (n - 2)) m)
       (b + n + 1 + n + (n - 2) + m).

Definition reference_node (sql : string) : node :=
  Node Load_from_sql [Concrete (VStr sql)].

Definition reduction_node (compared : list key) : node :=
  Node Reduction [Container (map Deferred compared)].

Definition loaded_nodes (b : nat) (files : list string) (sql : string)
  : list node :=
  map load_node files ++ [reference_node sql]
  ++ map (process_node (b + length files)) (seq b (length files)).

Definition built_nodes (e : nat -> nat) (d0 b : nat) (files : list string)
    (sql : string) (m : nat) : list node :=
  let n := length files in
  loaded_nodes b files sql
  ++ map (roll_node (b + n + 1)) (seq 0 (n - 2))
  ++ map (pair_node e (seq (b + n + 1 + n) (n - 2)) d0) (seq 0 m)
  ++ [reduction_node (seq (b + n + 1 + n + (n - 2)) m)].

(** [fits base l]: the nodes of [l], placed at keys [base], [base + 1], ...,
    only depend on smaller keys. *)
Definition fits (base : nat) (l : list node) : Prop :=
  forall i n, l !! i = Some n -> forall d, d ∈ node_deps n -> d < base + i.

(** The heap [h'] left by a successful run of [etl] on [n] files and [m]
    pairs that started from [h], node by node, where [b = length h]. *)
Record built (h : list node) (e : nat -> nat) (d0 : nat)
    (files : list string) (sql : string) (n m : nat) (h' : list node)
    : Prop := Built {
  built_size : length h' = length h + n + 1 + n + (n - 2) + m + 1;
  built_kept : forall k, k < length h -> h' !! k = h !! k;
  built_loads : forall i fname,
    files !! i = Some fname -> h' !! (length h + i) = Some (load_node fname);
  built_ref : h' !! (length h + n) = Some (reference_node sql);
  built_procs : forall i,
    i < n ->
    h' !! (length h + n + 1 + i)
    = Some (process_node (length h + n) (length h + i));
  built_rolls : forall i,
    i < n - 2 ->
    h' !! (length h + n + 1 + n + i) = Some (roll_node (length h + n + 1) i);
  built_pairs : forall j,
    j < m ->
    h' !! (length h + n + 1 + n + (n - 2) + j)
    = Some (pair_node e (seq (length h + n + 1 + n) (n - 2)) d0 j);
  built_red :
    h' !! (length h + n + 1 + n + (n - 2) + m)
    = Some (reduction_node (seq (length h + n + 1 + n + (n - 2)) m))
}.

(** The kinds of node [etl] creates, by position. *)
Inductive built_node (b : nat) (e : nat -> nat) (d0 : nat)
    (files : list string) (sql : string) (m : nat) (k : key) : node -> Prop :=
| is_load i fname :
    k = b + i -> files !! i = Some fname ->
    built_node b e d0 files sql m k (load_node fname)
| is_reference :
    k = b + length files ->
    built_node b e d0 files sql m k (reference_node sql)
| is_process i :
    k = b + length files + 1 + i -> i < length files ->
    built_node b e d0 files sql m k
      (process_node (b + length files) (b + i))
| is_roll i :
    k = b + length files + 1 + length files + i -> i < length files - 2 ->
    built_node b e d0 files sql m k (roll_node (b + length files + 1) i)
| is_pair j :
    k = b + length files + 1 + length files + (length files - 2) + j -> j < m ->
    built_node b e d0 files sql m k
      (pair_node e (seq (b + length files + 1 + length files)
                        (length files - 2)) d0 j)
| is_reduction :
    k = b + length files + 1 + length files + (length files - 2) + m ->
    built_node b e d0 files sql m k
      (reduction_node
         (seq (b + length files + 1 + length files + (length files - 2)) m)).

(** ** Induction on arguments, through the lists they contain *)

Fixpoint arg_nested_ind (P : arg -> Prop)
    (Hconc : forall v, P (Concrete v))
    (Hdef : forall d, P (Deferred d))
    (Hcont : forall items, Forall P items -> P (Container items))
    (a : arg) : P a :=
  match a with
  | Concrete v => Hconc v
  | Deferred d => Hdef d
  | Container items =>
      Hcont items
        ((fix all (l : list arg) : Forall P l :=
            match l with
            | [] => @List.Forall_nil _ P
            | x :: l' =>
                @List.Forall_cons _ P x l' (arg_nested_ind P Hconc Hdef Hcont x) (all l')
            end) items)
  end.

(** ** Sample inputs *)

(** A fresh kernel whose [d]-th raw draw is [d]. *)
Definition demo_world : world := fresh (fun d => d).

(** The heap after running cell 5 in that kernel; [best] gets key 49. *)
Abbreviation demo_heap := (heap (cell5 demo_world).2).

(** Task functions of which [roll] fails; the others are the notebook's. *)
Definition faulty (f : func) (vals : list pyval) : py pyval :=
  match f with
  | Roll => raise (TaskError "roll failed")
  | _ => call f vals
  end.

(** ** Notions for the properties of the plain functions and of the stages *)


(** The stages of the pipeline: which function's results are passed to
    which function in cells 5 and 9. *)
Definition feeds (producer consumer : func) : bool :=
  match producer, consumer with
  | Load, Process | Load_from_sql, Process => true
  | Process, Roll => true
  | Roll, Compare => true
  | Compare, Reduction => true
  | _, _ => false
  end.

(** The keys a cell binds, in the order the cell creates them. *)
Definition bound_keys (c : cell) : list key :=
  data c ++ [reference c] ++ processed c ++ rolled c ++ compared c ++ [best c].

(** * Properties *)

(** ** The model on small inputs *)

Example filenames_three :
  filenames 3 = ["mydata-0.dat"; "mydata-1.dat"; "mydata-2.dat"].
Proof. reflexivity. Qed.

Example etl_four_files :
  (etl (filenames 4) "sql://mytable" 2 demo_world).1
  = Return (Cell [0; 1; 2; 3] 4 [5; 6; 7; 8] [9; 10] [11; 12] 13).
Proof. vm_compute. reflexivity. Qed.

Example etl_four_files_rolled :
  heap (etl (filenames 4) "sql://mytable" 2 demo_world).2 !! 10
  = Some (Node Roll [Deferred 6; Deferred 7; Deferred 8]).
Proof. vm_compute. reflexivity. Qed.

Example etl_two_files_raises :
  (etl (filenames 2) "sql://mytable" 20 demo_world).1 = Raise IndexError.
Proof. vm_compute. reflexivity. Qed.

Example load_eagerly_draws :
  draws (Plain.load (VStr "mydata-0.dat") demo_world).2 = 1
  /\ draws (load [Concrete (VStr "mydata-0.dat")] demo_world).2 = 0.
Proof. split; reflexivity. Qed.

Example run_four_files :
  run call (heap (etl (filenames 4) "sql://mytable" 2 demo_world).2) 13
      demo_world
  = [Resolved 13 (Finished VNone); Started 13;
     Resolved 12 (Finished VNone); Started 12;
     Resolved 11 (Finished VNone); Started 11;
     Resolved 10 (Finished VNone); Started 10;
     Resolved 9 (Finished VNone); Started 9;
     Resolved 8 (Finished VNone); Started 8;
     Resolved 7 (Finished VNone); Started 7;
     Resolved 6 (Finished VNone); Started 6;
     Resolved 5 (Finished VNone); Started 5;
     Resolved 4 (Finished VNone); Started 4;
     Resolved 3 (Finished VNone); Started 3;
     Resolved 2 (Finished VNone); Started 2;
     Resolved 1 (Finished VNone); Started 1;
     Resolved 0 (Finished VNone); Started 0].
Proof. vm_compute. reflexivity. Qed.

Example run_faulty_four_files :
  await (run faulty (heap (etl (filenames 4) "sql://mytable" 2 demo_world).2)
             13 demo_world) 13
  = Some (Raise (TaskError "roll failed")).
Proof. vm_compute. reflexivity. Qed.

(** ** The monad and the loops *)

Lemma world_eta w : World (heap w) (entropy w) (draws w) (slept w) = w.
Proof. by destruct w. Qed.

Lemma comprehension_delayed {A} f (mk : A -> list arg) xs w :
  comprehension (fun x => delayed f (mk x)) xs w =
  (Return (seq (length (heap w)) (length xs)),
   World (heap w ++ map (fun x => Node f (mk x)) xs)
         (entropy w) (draws w) (slept w)).
Proof.
  revert w. induction xs as [|x xs IH]; intros w; simpl.
  - unfold ret. by rewrite app_nil_r, world_eta.
  - unfold bind at 1. simpl. unfold bind at 1. rewrite IH. simpl.
    unfold ret. rewrite length_app, <- app_assoc. simpl.
    by replace (length (heap w) + 1) with (S (length (heap w))) by lia.
Qed.

Lemma roll_loop p n i cnt acc w :
  i + cnt + 2 <= n \/ cnt = 0 ->
  for_each (seq i cnt) (roll_window (seq p n)) acc w =
  (Return (acc ++ seq (length (heap w)) cnt),
   World (heap w ++ map (roll_node p) (seq i cnt))
         (entropy w) (draws w) (slept w)).
Proof.
  revert i acc w. induction cnt as [|cnt IH]; intros i acc w Hb; simpl.
  - unfold ret. by rewrite !app_nil_r, world_eta.
  - assert (Hi : i + S cnt + 2 <= n) by lia.
    unfold bind at 1. unfold roll_window at 1. unfold getitem.
    rewrite !lookup_seq_lt by lia.
    unfold bind, ret, roll, delayed. simpl.
    rewrite IH by lia. simpl.
    rewrite length_app, <- !app_assoc. simpl.
    by replace (length (heap w) + 1) with (S (length (heap w))) by lia.
Qed.

Lemma choice_pick (pool : list key) w :
  pool <> [] ->
  choice pool w =
  (Return (pick (entropy w) pool (draws w)),
   World (heap w) (entropy w) (S (draws w)) (slept w)).
Proof.
  intros Hne. unfold choice, pick.
  assert (Hlt : entropy w (draws w) mod length pool < length pool).
  { apply Nat.mod_upper_bound. destruct pool; [done | simpl; lia]. }
  destruct (lookup_lt_is_Some_2 pool _ Hlt) as [x Hx]. rewrite Hx.
  do 2 f_equal. symmetry. by apply nth_lookup_Some.
Qed.

Lemma choice_empty {A} w : choice (@nil A) w = (Raise IndexError, w).
Proof. unfold choice. by rewrite lookup_nil. Qed.

Lemma pick_in e pool d : pool <> [] -> pick e pool d ∈ pool.
Proof.
  intros Hne. unfold pick. apply list_elem_of_In, nth_In.
  apply Nat.mod_upper_bound. destruct pool; [done | simpl; lia].
Qed.

Lemma pair_node_0 e pool d :
  pair_node e pool d 0 =
  Node Compare [Deferred (pick e pool d); Deferred (pick e pool (S d))].
Proof.
  unfold pair_node.
  replace (d + 2 * 0) with d by lia. by replace (d + 1) with (S d) by lia.
Qed.

Lemma pair_node_S e pool d j :
  pair_node e pool d (S j) = pair_node e pool (S (S d)) j.
Proof.
  unfold pair_node.
  by replace (d + 2 * S j) with (S (S d) + 2 * j) by lia.
Qed.

Lemma compare_loop pool i cnt acc w :
  pool <> [] ->
  for_each (seq i cnt) (compare_pair pool) acc w =
  (Return (acc ++ seq (length (heap w)) cnt),
   World (heap w ++ map (pair_node (entropy w) pool (draws w)) (seq 0 cnt))
         (entropy w) (draws w + 2 * cnt) (slept w)).
Proof.
  intros Hne. revert i acc w. induction cnt as [|cnt IH]; intros i acc w.
  - simpl. unfold ret. rewrite !app_nil_r, Nat.add_0_r. by rewrite world_eta.
  - cbn [seq for_each]. unfold bind at 1. unfold compare_pair at 1.
    unfold bind at 1. rewrite choice_pick by done.
    unfold bind at 1. rewrite choice_pick by done.
    unfold bind at 1. unfold compare, delayed, ret. cbn [heap entropy draws slept].
    rewrite IH. cbn [heap entropy draws slept].
    rewrite length_app, <- !app_assoc. cbn [length app map].
    rewrite pair_node_0, Nat.add_1_r.
    rewrite <- (seq_shift cnt 0), map_map.
    rewrite (map_ext _ _ (pair_node_S (entropy w) pool (draws w))).
    do 2 f_equal. lia.
Qed.

Lemma compare_loop_empty i cnt acc w :
  for_each (seq i (S cnt)) (compare_pair []) acc w = (Raise IndexError, w).
Proof.
  simpl. unfold bind at 1. unfold compare_pair. unfold bind at 1.
  by rewrite choice_empty.
Qed.

Lemma length_filenames n : length (filenames n) = n.
Proof. unfold filenames, range. by rewrite length_map, length_seq. Qed.

Lemma compare_loop_ok pool cnt acc w :
  pool <> [] \/ cnt = 0 ->
  for_each (range cnt) (compare_pair pool) acc w =
  (Return (acc ++ seq (length (heap w)) cnt),
   World (heap w ++ map (pair_node (entropy w) pool (draws w)) (seq 0 cnt))
         (entropy w) (draws w + 2 * cnt) (slept w)).
Proof.
  intros [Hne | ->]; [by apply compare_loop|].
  simpl. unfold ret. by rewrite !app_nil_r, Nat.add_0_r, world_eta.
Qed.

Lemma seq_nonempty p n : 0 < n -> seq p n <> [].
Proof. by destruct n; [lia|]. Qed.

(** A run of [etl] succeeds when there are at least three files (or no pair
    is sampled), and creates exactly the nodes of [built_nodes]. *)
Lemma etl_ok files sql m w :
  3 <= length files \/ m = 0 ->
  etl files sql m w =
  (Return (built_cell (length (heap w)) (length files) m),
   World (heap w ++ built_nodes (entropy w) (draws w) (length (heap w))
                                files sql m)
         (entropy w) (draws w + 2 * m) (slept w)).
Proof.
  intros Hok. unfold etl.
  unfold bind at 1. unfold load. rewrite comprehension_delayed.
  unfold bind at 1. unfold load_from_sql, delayed at 1.
  cbn [heap entropy draws slept].
  unfold bind at 1. unfold process. rewrite comprehension_delayed.
  cbn [heap entropy draws slept].
  unfold bind at 1. rewrite length_seq.
  unfold range at 1. rewrite roll_loop by lia.
  cbn [heap entropy draws slept app].
  rewrite !length_app, !length_map, !length_seq. cbn [length].
  unfold bind at 1. rewrite compare_loop_ok; cycle 1.
  { destruct Hok as [Hok | ->]; [left; apply seq_nonempty; lia | by right]. }
  cbn [heap entropy draws slept app].
  unfold bind at 1. unfold reduction, delayed, ret.
  cbn [heap entropy draws slept].
  rewrite !length_app, !length_map, !length_seq. cbn [length].
  unfold built_cell, built_nodes, loaded_nodes, reference_node, reduction_node,
    process_node.
  rewrite <- !app_assoc. cbn [app].
  replace (length (heap w) + length files + 1 + length files)
    with (length (heap w) + (length files + 1 + length files)) by lia.
  replace (length (heap w) + length files + 1 + length files + (length files - 2))
    with (length (heap w) + (length files + 1 + length files + (length files - 2)))
    by lia.
  replace (length (heap w) + length files + 1)
    with (length (heap w) + (length files + 1)) by lia.
  reflexivity.
Qed.

(** With fewer than three files nothing is rolled, and the first
    [random.choice] of the sampling loop raises. *)
Lemma etl_raise files sql m w :
  length files < 3 ->
  etl files sql (S m) w =
  (Raise IndexError,
   World (heap w ++ loaded_nodes (length (heap w)) files sql)
         (entropy w) (draws w) (slept w)).
Proof.
  intros Hlt. unfold etl.
  unfold bind at 1. unfold load. rewrite comprehension_delayed.
  unfold bind at 1. unfold load_from_sql, delayed at 1.
  cbn [heap entropy draws slept].
  unfold bind at 1. unfold process. rewrite comprehension_delayed.
  cbn [heap entropy draws slept].
  unfold bind at 1. unfold range at 1. rewrite !length_seq.
  replace (length files - 2) with 0 by lia. cbn [seq for_each].
  unfold ret at 1. unfold bind at 1. unfold range.
  rewrite compare_loop_empty.
  rewrite !length_app, !length_map. cbn [length].
  unfold loaded_nodes, reference_node, process_node.
  by rewrite <- !app_assoc.
Qed.

(** ** The nodes on the heap after [etl] *)

Lemma lookup_map {A B} (f : A -> B) (l : list A) i :
  map f l !! i = f <$> l !! i.
Proof. revert i. induction l as [|x l IH]; intros [|i]; simpl; auto. Qed.

Ltac seg_r :=
  rewrite lookup_app_r
    by (rewrite ?length_map, ?length_seq; cbn [length]; lia);
  rewrite ?length_map, ?length_seq; cbn [length].

Ltac seg_l :=
  rewrite lookup_app_l
    by (rewrite ?length_map, ?length_seq; cbn [length]; lia).

Ltac open_built :=
  unfold built_nodes, loaded_nodes; cbv zeta; rewrite <- ?app_assoc.

Section Built.

Variables (h0 : list node) (e : nat -> nat) (d0 : nat).
Variables (files : list string) (sql : string) (m : nat).

Let b := length h0.
Let n := length files.
Let h := h0 ++ built_nodes e d0 b files sql m.

Lemma built_old k : k < b -> h !! k = h0 !! k.
Proof. intros Hk. unfold h. by rewrite lookup_app_l. Qed.

Lemma built_load i fname :
  files !! i = Some fname -> h !! (b + i) = Some (load_node fname).
Proof.
  intros Hi. pose proof (lookup_lt_Some _ _ _ Hi) as Hlt.
  unfold h, b. seg_r. open_built. seg_l.
  rewrite lookup_map. replace (length h0 + i - length h0) with i by lia.
  by rewrite Hi.
Qed.

Lemma built_reference : h !! (b + n) = Some (reference_node sql).
Proof.
  unfold h, b, n. seg_r. open_built. seg_r.
  by replace (length h0 + length files - length h0 - length files) with 0
    by lia.
Qed.

Lemma built_process i :
  i < n -> h !! (b + n + 1 + i) = Some (process_node (b + n) (b + i)).
Proof.
  intros Hi. unfold h, b, n in *. seg_r. open_built. do 2 seg_r. seg_l.
  rewrite lookup_map, lookup_seq_lt by lia. simpl. do 2 f_equal. lia.
Qed.

Lemma built_roll i :
  i < n - 2 ->
  h !! (b + n + 1 + n + i) = Some (roll_node (b + n + 1) i).
Proof.
  intros Hi. unfold h, b, n in *. seg_r. open_built. do 3 seg_r. seg_l.
  rewrite lookup_map, lookup_seq_lt by lia. simpl. do 2 f_equal. lia.
Qed.

Lemma built_pair j :
  j < m ->
  h !! (b + n + 1 + n + (n - 2) + j) =
  Some (pair_node e (seq (b + n + 1 + n) (n - 2)) d0 j).
Proof.
  intros Hj. unfold h, b, n in *. seg_r. open_built. do 4 seg_r. seg_l.
  rewrite lookup_map, lookup_seq_lt by lia. simpl. do 2 f_equal. lia.
Qed.

Lemma built_reduction :
  h !! (b + n + 1 + n + (n - 2) + m) =
  Some (reduction_node (seq (b + n + 1 + n + (n - 2)) m)).
Proof.
  unfold h, b, n in *. seg_r. open_built. do 5 seg_r.
  match goal with |- [_] !! ?i = _ => replace i with 0 by lia end.
  reflexivity.
Qed.

Lemma built_length : length h = b + n + 1 + n + (n - 2) + m + 1.
Proof.
  unfold h, b, n, built_nodes, loaded_nodes. cbv zeta.
  rewrite !length_app, !length_map, !length_seq. cbn [length]. lia.
Qed.

End Built.

(** ** Dependencies point backwards *)

Lemma composed_ordered h :
  composed h -> ordered h.
Proof.
  induction 1 as [|h f actuals _ IH Hargs]; intros k n Hk d Hd.
  - by rewrite lookup_nil in Hk.
  - destruct (decide (k < length h)) as [Hlt|Hge].
    + rewrite lookup_app_l in Hk by done. eauto.
    + rewrite lookup_app_r in Hk by lia.
      destruct (k - length h) as [|i] eqn:Hi; simpl in Hk; [|by destruct i].
      injection Hk as <-. apply Hargs in Hd. lia.
Qed.

Lemma ordered_composed h : ordered h -> composed h.
Proof.
  induction h as [|n h IH] using rev_ind; intros Hord; [constructor|].
  destruct n as [f actuals]. constructor.
  - apply IH. intros k n Hk. apply (Hord k n).
    by rewrite lookup_app_l by (by eapply lookup_lt_Some).
  - intros d Hd. apply (Hord (length h) (Node f actuals)); [|done].
    by rewrite lookup_app_r, Nat.sub_diag by lia.
Qed.

Lemma ordered_tc h k j : ordered h -> tc (depends h) k j -> j < k.
Proof.
  intros Hord. induction 1 as [k j (n & Hn & Hd)|k i j (n & Hn & Hd) _ IH].
  - eauto.
  - specialize (Hord _ _ Hn _ Hd). lia.
Qed.

Lemma ordered_rtc h k j : ordered h -> rtc (depends h) k j -> j <= k.
Proof.
  intros Hord [->|Htc]%rtc_tc; [lia|]. apply (ordered_tc _ _ _ Hord) in Htc. lia.
Qed.

Lemma ordered_acyclic h : ordered h -> acyclic h.
Proof. intros Hord k Hk. apply (ordered_tc _ _ _ Hord) in Hk. lia. Qed.

Lemma orderedb_ordered h : orderedb h = true -> ordered h.
Proof.
  unfold orderedb. rewrite forallb_forall. intros Hall k n Hk d Hd.
  specialize (Hall (k, n)). rewrite forallb_forall in Hall.
  apply Nat.ltb_lt, (Hall ltac:(apply list_elem_of_In, list_elem_of_lookup;
    exists k; by rewrite list_lookup_imap, Hk) d).
  by apply list_elem_of_In.
Qed.

Lemma well_calledb_well_called h : well_calledb h = true -> well_called h.
Proof.
  unfold well_calledb. rewrite forallb_forall. intros Hall k n Hk.
  apply Nat.eqb_eq, Hall, list_elem_of_In, list_elem_of_lookup. eauto.
Qed.

Lemma fits_app base l1 l2 :
  fits base l1 -> fits (base + length l1) l2 -> fits base (l1 ++ l2).
Proof.
  intros H1 H2 i n Hi d Hd. destruct (decide (i < length l1)).
  - rewrite lookup_app_l in Hi by done. eauto.
  - rewrite lookup_app_r in Hi by lia. specialize (H2 _ _ Hi _ Hd). lia.
Qed.

Lemma fits_map {A} base (f : A -> node) (xs : list A) :
  (forall i x, xs !! i = Some x -> forall d, d ∈ node_deps (f x) -> d < base + i) ->
  fits base (map f xs).
Proof.
  intros H i n Hi d Hd. rewrite lookup_map in Hi.
  destruct (xs !! i) as [x|] eqn:Hx; [|done]. injection Hi as <-. eauto.
Qed.

Lemma fits_singleton base n :
  (forall d, d ∈ node_deps n -> d < base) -> fits base [n].
Proof.
  intros H [|i] n' Hi d Hd; simpl in Hi; [|by destruct i].
  injection Hi as <-. specialize (H _ Hd). lia.
Qed.

Lemma ordered_app h l : ordered h -> fits (length h) l -> ordered (h ++ l).
Proof.
  intros Hh Hl k n Hk d Hd. destruct (decide (k < length h)).
  - rewrite lookup_app_l in Hk by done. eauto.
  - rewrite lookup_app_r in Hk by lia. specialize (Hl _ _ Hk _ Hd). lia.
Qed.

Lemma deps_of_deferred (l : list key) : flat_map arg_deps (map Deferred l) = l.
Proof. induction l as [|x l IH]; simpl; by f_equal. Qed.

Lemma node_deps_reduction l : node_deps (reduction_node l) = l.
Proof.
  unfold node_deps, reduction_node. simpl.
  by rewrite app_nil_r, deps_of_deferred.
Qed.

Lemma pick_bound e p cnt d : pick e (seq p cnt) d < p + cnt \/ pick e (seq p cnt) d = 0.
Proof.
  destruct cnt as [|cnt].
  { right. unfold pick. apply nth_overflow. simpl. lia. }
  left. assert (Hin : pick e (seq p (S cnt)) d ∈ seq p (S cnt))
    by (by apply pick_in).
  apply list_elem_of_In, in_seq in Hin. lia.
Qed.

Ltac in_cases H :=
  repeat (apply elem_of_cons in H as [->|H]); [..|by apply elem_of_nil in H].

Lemma fits_loaded b files sql : fits b (loaded_nodes b files sql).
Proof.
  unfold loaded_nodes. apply fits_app; [|apply fits_app].
  - apply fits_map. intros i x _ d Hd. simpl in Hd. by apply elem_of_nil in Hd.
  - apply fits_singleton. intros d Hd. simpl in Hd. by apply elem_of_nil in Hd.
  - rewrite length_map. simpl. apply fits_map. intros i x Hx d Hd.
    apply lookup_seq in Hx as [-> Hi]. unfold process_node, node_deps in Hd.
    simpl in Hd. in_cases Hd; lia.
Qed.

Lemma fits_built e d0 b files sql m : fits b (built_nodes e d0 b files sql m).
Proof.
  unfold built_nodes. cbv zeta.
  apply fits_app; [apply fits_loaded|]. set (n := length files).
  assert (Hlen : length (loaded_nodes b files sql) = n + 1 + n).
  { unfold loaded_nodes. rewrite !length_app, !length_map, length_seq. simpl.
    unfold n. lia. }
  rewrite Hlen. apply fits_app; [|apply fits_app].
  - apply fits_map. intros i x Hx d Hd. apply lookup_seq in Hx as [-> Hi].
    unfold roll_node, node_deps in Hd. simpl in Hd. in_cases Hd; lia.
  - rewrite length_map, length_seq. apply fits_map. intros j x Hx d Hd.
    apply lookup_seq in Hx as [-> Hj]. unfold pair_node, node_deps in Hd.
    cbn [args flat_map arg_deps app] in Hd. change (0 + j) with j in Hd.
    pose proof (pick_bound e (b + n + 1 + n) (n - 2) (d0 + 2 * j)).
    pose proof (pick_bound e (b + n + 1 + n) (n - 2) (d0 + 2 * j + 1)).
    in_cases Hd; lia.
  - rewrite !length_map, !length_seq. apply fits_singleton. intros d Hd.
    rewrite node_deps_reduction in Hd. apply list_elem_of_In, in_seq in Hd. lia.
Qed.

(** Whether [etl] returns or raises, the heap it leaves is ordered. *)
Lemma etl_ordered files sql m w :
  ordered (heap w) -> ordered (heap (etl files sql m w).2).
Proof.
  intros Hord.
  destruct (decide (3 <= length files \/ m = 0)) as [Hok|Hbad].
  - rewrite etl_ok by done. simpl. apply ordered_app; [done|apply fits_built].
  - destruct m as [|m]; [lia|]. rewrite etl_raise by lia. simpl.
    apply ordered_app; [done|apply fits_loaded].
Qed.

Lemma etl_returns files sql m w n :
  length files = n ->
  3 <= n \/ m = 0 ->
  exists w',
    etl files sql m w = (Return (built_cell (length (heap w)) n m), w')
    /\ built (heap w) (entropy w) (draws w) files sql n m (heap w')
    /\ entropy w' = entropy w
    /\ draws w' = draws w + 2 * m
    /\ slept w' = slept w.
Proof.
  intros <- Hok. eexists. split; [by apply etl_ok|]. simpl.
  split; [|done]. constructor.
  - apply built_length.
  - apply built_old.
  - apply built_load.
  - apply built_reference.
  - apply built_process.
  - apply built_roll.
  - apply built_pair.
  - apply built_reduction.
Qed.

Lemma cell5_returns w :
  exists w',
    cell5 w = (Return (built_cell (length (heap w)) 10 20), w')
    /\ built (heap w) (entropy w) (draws w) (filenames 10) "sql://mytable"
             10 20 (heap w')
    /\ entropy w' = entropy w
    /\ draws w' = draws w + 40
    /\ slept w' = slept w.
Proof. apply etl_returns; [apply length_filenames | lia]. Qed.

Lemma cell9_returns w :
  exists w',
    cell9 w = (Return (built_cell (length (heap w)) 100 200), w')
    /\ built (heap w) (entropy w) (draws w) (filenames 100) "sql://mytable"
             100 200 (heap w')
    /\ entropy w' = entropy w
    /\ draws w' = draws w + 400
    /\ slept w' = slept w.
Proof. apply etl_returns; [apply length_filenames | lia]. Qed.

(** ** The wrappers *)

Lemma arg_deps_occurs j a : j ∈ arg_deps a <-> occurs j a.
Proof.
  induction a as [v|d|items IH] using arg_nested_ind; simpl.
  - split; [by intros ?%elem_of_nil | inversion 1].
  - split; [intros ->%list_elem_of_singleton; constructor | by inversion 1; left].
  - rewrite list_elem_of_In, in_flat_map. split.
    + intros (a & Ha%list_elem_of_In & Hj%list_elem_of_In).
      rewrite Forall_forall in IH. econstructor; [done|]. by apply IH.
    + inversion 1 as [|? a Ha Hocc]; subst. exists a.
      rewrite Forall_forall in IH. rewrite <- !list_elem_of_In.
      split; [done|]. by apply IH.
Qed.

Lemma args_deps_occurs j actuals :
  j ∈ flat_map arg_deps actuals <-> exists a, a ∈ actuals /\ occurs j a.
Proof.
  rewrite list_elem_of_In, in_flat_map. split.
  - intros (a & Ha%list_elem_of_In & Hj%list_elem_of_In).
    exists a. by rewrite <- arg_deps_occurs.
  - intros (a & Ha & Hj). exists a. rewrite <- !list_elem_of_In.
    by rewrite arg_deps_occurs.
Qed.

(** Running a task function, in contrast, draws from [random] and sleeps. *)
Lemma call_runs_body f vals w :
  length vals = arity f ->
  (call f vals w).1 = Return VNone
  /\ draws (call f vals w).2 = S (draws w)
  /\ heap (call f vals w).2 = heap w.
Proof.
  destruct f, vals as [|v1 [|v2 [|v3 [|v4 vals]]]]; simpl; intros Hlen;
    try discriminate; done.
Qed.

(** C2. For every task function and every tuple of arguments, calling the
    wrapper returns (it never raises) a new deferred value, recorded on the
    heap with that function and those arguments, whose dependency set is
    exactly the set of deferred values occurring among the arguments, also
    inside lists; existing nodes are untouched, and nothing of the function's
    body ran: no draw from [random] was consumed and no time was slept. *)
Theorem delayed_defers f actuals w :
  exists d w',
    delayed f actuals w = (Return d, w')
    /\ heap w !! d = None
    /\ heap w' !! d = Some (Node f actuals)
    /\ (forall k, k <> d -> heap w' !! k = heap w !! k)
    /\ (forall j, j ∈ dependencies (heap w') d
                  <-> exists a, a ∈ actuals /\ occurs j a)
    /\ entropy w' = entropy w
    /\ draws w' = draws w
    /\ slept w' = slept w.
Proof.
  eexists _, _. split; [reflexivity|]. simpl.
  assert (Hnew : (heap w ++ [Node f actuals]) !! length (heap w)
                 = Some (Node f actuals)).
  { by rewrite lookup_app_r, Nat.sub_diag by lia. }
  split; [by apply lookup_ge_None_2|]. split; [done|].
  split; [|split; [|done]].
  - intros k Hk. destruct (decide (k < length (heap w))).
    + by rewrite lookup_app_l.
    + rewrite !lookup_ge_None_2; [done|lia|]. rewrite length_app. simpl. lia.
  - intros j. unfold dependencies. rewrite Hnew, elem_of_list_to_set.
    apply args_deps_occurs.
Qed.

Lemma delayed_defers_witness :
  exists d w',
    reduction [Container [Deferred 0; Concrete VNone; Deferred 1]]
      (World [load_node "a"; load_node "b"] (fun d => d) 0 0)
    = (Return d, w')
    /\ 0 ∈ dependencies (heap w') d
    /\ 1 ∈ dependencies (heap w') d
    /\ heap w' !! 0 = Some (load_node "a")
    /\ draws w' = 0.
Proof.
  destruct (delayed_defers Reduction
              [Container [Deferred 0; Concrete VNone; Deferred 1]]
              (World [load_node "a"; load_node "b"] (fun d => d) 0 0))
    as (d & w' & Hrun & Hnew & _ & Hkeep & Hdeps & _ & Hdraws & _).
  exists d, w'. split; [exact Hrun|].
  assert (Hin : forall j, j ∈ [0; 1] -> j ∈ dependencies (heap w') d).
  { intros j Hj. apply Hdeps. eexists. split; [left|].
    econstructor; [|constructor].
    apply elem_of_cons in Hj as [->|Hj]; [left|].
    apply list_elem_of_singleton in Hj as ->. right. right. left. }
  split; [apply Hin; left|]. split; [apply Hin; right; left|].
  split; [|exact Hdraws].
  rewrite Hkeep; [reflexivity|]. intros <-. discriminate Hnew.
Defined.

(** C1. Starting from any heap obtained by wrapper calls, for all file
    names, SQL address, number of pairs and random draws, the heap left by
    the graph-building cell is again obtained by wrapper calls on existing
    deferred values, and its dependency relation is acyclic: no node depends,
    directly or transitively, on itself. This holds whether the cell returns
    or raises. *)
Theorem etl_acyclic files sql npairs w :
  composed (heap w) ->
  composed (heap (etl files sql npairs w).2)
  /\ acyclic (heap (etl files sql npairs w).2).
Proof.
  intros Hc%composed_ordered.
  pose proof (etl_ordered files sql npairs w Hc) as Hord.
  split; [by apply ordered_composed | by apply ordered_acyclic].
Qed.

Lemma etl_acyclic_witness :
  composed (heap (cell5 (fresh (fun d => d))).2)
  /\ acyclic (heap (cell5 (fresh (fun d => d))).2).
Proof. apply etl_acyclic. simpl. constructor. Defined.

(** ** The stages of cell 5 *)

Lemma dependencies_lookup h k n :
  h !! k = Some n -> dependencies h k = list_to_set (node_deps n).
Proof. intros Hk. unfold dependencies. by rewrite Hk. Qed.

Lemma node_deps_roll p i : node_deps (roll_node p i) = [p + i; p + (i + 1); p + (i + 2)].
Proof. reflexivity. Qed.

Lemma node_deps_process ref d : node_deps (process_node ref d) = [d; ref].
Proof. reflexivity. Qed.

Lemma node_deps_pair e pool d0 j :
  node_deps (pair_node e pool d0 j)
  = [pick e pool (d0 + 2 * j); pick e pool (d0 + 2 * j + 1)].
Proof. reflexivity. Qed.

Lemma list_to_set_three (a b c : nat) :
  list_to_set [a; b; c] =@{gset nat} {[a; b; c]}.
Proof.
  apply set_eq. intros x.
  rewrite elem_of_list_to_set, !elem_of_cons, elem_of_nil, !elem_of_union,
    !elem_of_singleton. tauto.
Qed.

Lemma size_list_to_set_two (a b : nat) :
  size (list_to_set [a; b] : gset nat) = if decide (a = b) then 1 else 2.
Proof.
  cbn [list_to_set foldr]. rewrite union_empty_r_L. destruct (decide (a = b)) as [->|Hne].
  - by rewrite union_idemp_L, size_singleton.
  - rewrite size_union, !size_singleton; [done|].
    intros x. rewrite !elem_of_singleton. congruence.
Qed.

(** C3. Cell 5 always returns; it binds 10 processed items and exactly
    8 = 10 - 2 roll nodes, and the [i]-th roll node was built from, and
    depends on exactly, the processed nodes at positions [i], [i + 1] and
    [i + 2]. *)
Theorem cell5_rolled w :
  exists c w',
    cell5 w = (Return c, w')
    /\ length (processed c) = 10
    /\ length (rolled c) = 8
    /\ forall i, i < 8 ->
         exists r p0 p1 p2,
           rolled c !! i = Some r
           /\ processed c !! i = Some p0
           /\ processed c !! (i + 1) = Some p1
           /\ processed c !! (i + 2) = Some p2
           /\ heap w' !! r = Some (Node Roll [Deferred p0; Deferred p1; Deferred p2])
           /\ dependencies (heap w') r = {[p0; p1; p2]}.
Proof.
  destruct (cell5_returns w) as (w' & Hrun & Hb & _).
  eexists _, w'. split; [exact Hrun|]. cbn [processed rolled built_cell].
  rewrite !length_seq. do 2 (split; [reflexivity|]).
  intros i Hi. eexists _, _, _, _.
  rewrite !lookup_seq_lt by lia. do 4 (split; [reflexivity|]).
  pose proof (built_rolls _ _ _ _ _ _ _ _ Hb i ltac:(lia)) as Hr.
  split; [exact Hr|]. rewrite (dependencies_lookup _ _ _ Hr).
  by rewrite node_deps_roll, list_to_set_three.
Qed.

Lemma cell5_rolled_witness :
  exists c w',
    cell5 (fresh (fun d => d)) = (Return c, w')
    /\ length (rolled c) = 8
    /\ exists r, rolled c !! 7 = Some r
         /\ exists p0 p1 p2,
              heap w' !! r = Some (Node Roll [Deferred p0; Deferred p1; Deferred p2])
              /\ processed c !! 7 = Some p0
              /\ processed c !! 8 = Some p1
              /\ processed c !! 9 = Some p2.
Proof.
  destruct (cell5_rolled (fresh (fun d => d)))
    as (c & w' & Hrun & _ & Hlen & Hwin).
  destruct (Hwin 7 ltac:(lia)) as (r & p0 & p1 & p2 & Hr & H0 & H1 & H2 & Hn & _).
  exists c, w'. split; [exact Hrun|]. split; [exact Hlen|].
  exists r. split; [exact Hr|]. exists p0, p1, p2. auto.
Defined.

(** C4. Cell 5 builds exactly 20 compare nodes whatever the random draws.
    Each was built from two roll nodes (both elements of [rolled]), so each
    has two dependency arguments; the two may be the same roll node, in which
    case the dependency set has one element instead of two. Sharing
    and self-pairing do occur: with draws that are all 0, the first two
    compare nodes are distinct nodes that both pair the same roll node with
    itself. *)
Theorem cell5_compared :
  (forall w, exists c w',
     cell5 w = (Return c, w')
     /\ length (rolled c) = 8
     /\ length (compared c) = 20
     /\ forall j, j < 20 ->
          exists k a b,
            compared c !! j = Some k
            /\ heap w' !! k = Some (Node Compare [Deferred a; Deferred b])
            /\ a ∈ rolled c /\ b ∈ rolled c
            /\ node_deps (Node Compare [Deferred a; Deferred b]) = [a; b]
            /\ size (dependencies (heap w') k) = if decide (a = b) then 1 else 2)
  /\ (exists w c w' k1 k2 a,
       cell5 w = (Return c, w')
       /\ compared c !! 0 = Some k1 /\ compared c !! 1 = Some k2 /\ k1 <> k2
       /\ a ∈ rolled c
       /\ heap w' !! k1 = Some (Node Compare [Deferred a; Deferred a])
       /\ heap w' !! k2 = Some (Node Compare [Deferred a; Deferred a])).
Proof.
  split.
  - intros w. destruct (cell5_returns w) as (w' & Hrun & Hb & _).
    eexists _, w'. split; [exact Hrun|]. cbn [compared rolled built_cell].
    rewrite !length_seq. do 2 (split; [reflexivity|]).
    intros j Hj. pose proof (built_pairs _ _ _ _ _ _ _ _ Hb j Hj) as Hk.
    eexists _, _, _. rewrite lookup_seq_lt by lia.
    split; [reflexivity|]. split; [exact Hk|].
    assert (Hne : seq (length (heap w) + 10 + 1 + 10) (10 - 2) <> [])
      by (apply seq_nonempty; lia).
    do 2 (split; [by apply pick_in|]). split; [reflexivity|].
    rewrite (dependencies_lookup _ _ _ Hk), node_deps_pair.
    apply size_list_to_set_two.
  - exists (fresh (fun _ => 0)).
    eexists _, _, _, _, _. split; [vm_compute; reflexivity|].
    cbn [compared rolled].
    split; [reflexivity|]. split; [reflexivity|]. split; [lia|].
    split; [apply list_elem_of_here|]. split; reflexivity.
Qed.

Lemma cell5_compared_witness :
  exists c w',
    cell5 (fresh (fun d => d)) = (Return c, w')
    /\ length (compared c) = 20
    /\ exists k a b,
         compared c !! 19 = Some k
         /\ heap w' !! k = Some (Node Compare [Deferred a; Deferred b])
         /\ a ∈ rolled c /\ b ∈ rolled c.
Proof.
  destruct cell5_compared as [Hall _].
  destruct (Hall (fresh (fun d => d))) as (c & w' & Hrun & _ & Hlen & Hpairs).
  destruct (Hpairs 19 ltac:(lia)) as (k & a & b & Hk & Hn & Ha & Hb & _).
  exists c, w'. split; [exact Hrun|]. split; [exact Hlen|].
  exists k, a, b. auto.
Defined.

(** ** Traces *)

Lemma outcome_of_elem tr k o : outcome_of tr k = Some o -> Resolved k o ∈ tr.
Proof.
  induction tr as [|[j|j o'] tr IH]; simpl; intros H; [done| |].
  - right. auto.
  - destruct (Nat.eqb_spec j k) as [->|Hne].
    + injection H as ->. left.
    + right. auto.
Qed.

Lemma started_elem tr k : started tr k = true -> Started k ∈ tr.
Proof.
  induction tr as [|[j|j o'] tr IH]; simpl; intros H; [done| |].
  - destruct (Nat.eqb_spec j k) as [->|Hne]; [left|right; auto].
  - right. auto.
Qed.

Lemma elem_started tr k : Started k ∈ tr -> started tr k = true.
Proof.
  induction tr as [|ev tr IH]; [by intros ?%elem_of_nil|].
  intros [<-|Hin]%elem_of_cons; simpl.
  - by rewrite Nat.eqb_refl.
  - destruct ev; rewrite IH by done; by rewrite ?orb_true_r.
Qed.

Lemma executions_started tr k : started tr k = false <-> executions tr k = 0.
Proof.
  induction tr as [|[j|j o'] tr IH]; simpl; [done| |done].
  destruct (Nat.eqb_spec j k); simpl; [split; [done|lia]|done].
Qed.

Lemma all_some_length {A} (l : list (option A)) xs :
  all_some l = Some xs -> length xs = length l.
Proof.
  revert xs. induction l as [|[x|] l IH]; simpl; intros xs H; [by injection H as <-| |done].
  destruct (all_some l) as [ys|]; [|done]. injection H as <-. simpl. by rewrite (IH ys).
Qed.

Lemma arg_values_length tr actuals vals :
  arg_values tr actuals = Some vals -> length vals = length actuals.
Proof.
  unfold arg_values. intros H%all_some_length. by rewrite length_map in H.
Qed.

Lemma all_some_map {A B} (f g : A -> option B) (l : list A) xs :
  Forall (fun a => forall b, f a = Some b -> g a = Some b) l ->
  all_some (map f l) = Some xs -> all_some (map g l) = Some xs.
Proof.
  intros Hall. revert xs. induction Hall as [|a l Ha _ IH]; simpl; [done|].
  intros xs. destruct (f a) as [b|]; [|done]. rewrite (Ha b eq_refl).
  destruct (all_some (map f l)) as [ys|]; [|done]. by rewrite (IH ys).
Qed.

(** Argument values only depend on the outcomes recorded in the trace. *)
Lemma arg_value_mono tr tr' a v :
  (forall j o, outcome_of tr j = Some o -> outcome_of tr' j = Some o) ->
  arg_value tr a = Some v -> arg_value tr' a = Some v.
Proof.
  intros Hmono. revert v.
  induction a as [v0|d|items IH] using arg_nested_ind; simpl; intros v; [done| |].
  - destruct (outcome_of tr d) as [[v'|]|] eqn:Hd; [|done..].
    by rewrite (Hmono _ _ Hd).
  - destruct (all_some (map (arg_value tr) items)) as [vs|] eqn:Hvs; [|done].
    by rewrite (all_some_map _ _ _ _ IH Hvs).
Qed.

Lemma arg_values_mono tr tr' actuals vals :
  (forall j o, outcome_of tr j = Some o -> outcome_of tr' j = Some o) ->
  arg_values tr actuals = Some vals -> arg_values tr' actuals = Some vals.
Proof.
  intros Hmono. unfold arg_values. apply all_some_map, Forall_forall.
  intros a _ b. by apply arg_value_mono.
Qed.

Lemma all_some_elem {A B} (f : A -> option B) (l : list A) xs a :
  all_some (map f l) = Some xs -> a ∈ l -> is_Some (f a).
Proof.
  revert xs. induction l as [|x l IH]; simpl; intros xs H Ha;
    [by apply elem_of_nil in Ha|].
  destruct (f x) as [y|] eqn:Hx; [|done].
  destruct (all_some (map f l)) as [ys|] eqn:Hys; [|done].
  apply elem_of_cons in Ha as [->|Ha]; [by rewrite Hx|eauto].
Qed.

(** Once the values of the arguments are there, every deferred value among
    them has finished. *)
Lemma arg_value_finished tr a v j :
  arg_value tr a = Some v -> j ∈ arg_deps a ->
  exists v', outcome_of tr j = Some (Finished v').
Proof.
  revert v. induction a as [v0|d|items IH] using arg_nested_ind; simpl;
    intros v Hv Hj.
  - by apply elem_of_nil in Hj.
  - apply list_elem_of_singleton in Hj as ->.
    destruct (outcome_of tr d) as [[v'|]|]; [eauto|done..].
  - destruct (all_some (map (arg_value tr) items)) as [vs|] eqn:Hvs; [|done].
    apply list_elem_of_In, in_flat_map in Hj as (a & Ha%list_elem_of_In & Hj%list_elem_of_In).
    destruct (all_some_elem _ _ _ _ Hvs Ha) as [va Hva].
    rewrite Forall_forall in IH. eauto.
Qed.

Lemma arg_values_finished tr actuals vals j :
  arg_values tr actuals = Some vals -> j ∈ flat_map arg_deps actuals ->
  exists v', outcome_of tr j = Some (Finished v').
Proof.
  intros Hvs (a & Ha%list_elem_of_In & Hj%list_elem_of_In)%list_elem_of_In%in_flat_map.
  destruct (all_some_elem _ _ _ _ Hvs Ha) as [va Hva].
  eauto using arg_value_finished.
Qed.

Lemma all_some_total {A B} (f : A -> option B) (l : list A) :
  Forall (fun a => is_Some (f a)) l -> is_Some (all_some (map f l)).
Proof.
  induction 1 as [|a l [b Hb] _ [bs Hbs]]; simpl; [done|].
  by rewrite Hb, Hbs.
Qed.

(** When every deferred value among the arguments has finished, the values
    of the arguments are there. *)
Lemma arg_value_total tr a :
  (forall j, j ∈ arg_deps a -> exists v, outcome_of tr j = Some (Finished v)) ->
  is_Some (arg_value tr a).
Proof.
  induction a as [v0|d|items IH] using arg_nested_ind; simpl; intros Hdeps.
  - done.
  - destruct (Hdeps d) as [v ->]; [by left|done].
  - destruct (all_some_total (arg_value tr) items) as [vs ->]; [|done].
    rewrite Forall_forall in IH. apply Forall_forall. intros a Ha.
    apply IH; [done|]. intros j Hj. apply Hdeps.
    apply list_elem_of_In, in_flat_map. exists a. by rewrite <- !list_elem_of_In.
Qed.

Lemma arg_values_total tr actuals :
  (forall j, j ∈ flat_map arg_deps actuals ->
             exists v, outcome_of tr j = Some (Finished v)) ->
  is_Some (arg_values tr actuals).
Proof.
  intros Hdeps. apply all_some_total, Forall_forall. intros a Ha.
  apply arg_value_total. intros j Hj. apply Hdeps.
  apply list_elem_of_In, in_flat_map. exists a. by rewrite <- !list_elem_of_In.
Qed.

Lemma first_erred_some tr ds o e :
  first_erred tr ds = Some (o, e) ->
  exists j, j ∈ ds /\ outcome_of tr j = Some (Erred o e).
Proof.
  induction ds as [|d ds IH]; simpl; [done|].
  destruct (outcome_of tr d) as [[v|o' e']|] eqn:Hd; intros H.
  - destruct (IH H) as (j & ? & ?). exists j. split; [by right|done].
  - injection H as -> ->. exists d. split; [by left|done].
  - destruct (IH H) as (j & ? & ?). exists j. split; [by right|done].
Qed.

(** Resolved dependencies either all finished or one of them failed. *)
Lemma resolved_deps_cases tr ds :
  (forall j, j ∈ ds -> is_Some (outcome_of tr j)) ->
  (forall j, j ∈ ds -> exists v, outcome_of tr j = Some (Finished v))
  \/ is_Some (first_erred tr ds).
Proof.
  induction ds as [|d ds IH]; intros Hres; [left; by intros j ?%elem_of_nil|].
  simpl. destruct (Hres d) as [[v|o e] Hd]; [by left| |]; rewrite Hd; [|by right].
  destruct IH as [Hfin|Herr]; [intros j Hj; apply Hres; by right| |by right].
  left. intros j [->|Hj]%elem_of_cons; eauto.
Qed.

(** ** Executions *)

Section Executions.

Variable apply : func -> list pyval -> py pyval.
Variable h : list node.
Variable t : key.

Lemma enabled_unresolved tr ev :
  enabled apply h t tr ev -> outcome_of tr (event_key ev) = None.
Proof. by destruct 1. Qed.

Lemma enabled_in_heap tr ev :
  enabled apply h t tr ev -> is_Some (h !! event_key ev).
Proof. destruct 1; simpl; eauto. Qed.

(** A result, once recorded, is never replaced. *)
Lemma outcome_stable tr ev j o :
  enabled apply h t tr ev ->
  outcome_of tr j = Some o -> outcome_of (ev :: tr) j = Some o.
Proof.
  intros Hen%enabled_unresolved Hj. destruct ev as [k|k o']; simpl in *; [done|].
  destruct (Nat.eqb_spec k j) as [->|]; [congruence|done].
Qed.

Lemma execution_suffix l1 l2 :
  execution apply h t (l1 ++ l2) -> execution apply h t l2.
Proof. induction l1 as [|ev l1 IH]; simpl; [done|]. inversion 1; auto. Qed.

Lemma outcome_stable_app l1 l2 j o :
  execution apply h t (l1 ++ l2) ->
  outcome_of l2 j = Some o -> outcome_of (l1 ++ l2) j = Some o.
Proof.
  induction l1 as [|ev l1 IH]; simpl; [done|]. inversion 1; subst. intros Hj.
  apply outcome_stable; auto.
Qed.

(** A node that was started had the values of all its arguments. *)
Lemma started_had_values tr k :
  execution apply h t tr -> started tr k = true ->
  exists n vals, h !! k = Some n /\ arg_values tr (args n) = Some vals.
Proof.
  induction 1 as [|tr ev Hex IH Hen]; [done|]. intros Hk.
  assert (Hkeep : forall n vals,
            h !! k = Some n /\ arg_values tr (args n) = Some vals ->
            h !! k = Some n /\ arg_values (ev :: tr) (args n) = Some vals).
  { intros n vals [? ?]. split; [done|].
    eapply arg_values_mono; [|done]. intros; by apply outcome_stable. }
  destruct ev as [j|j o]; simpl in Hk.
  - destruct (Nat.eqb_spec j k) as [->|Hne].
    + inversion Hen; subst. eauto.
    + destruct (IH Hk) as (n & vals & ?). eauto.
  - destruct (IH Hk) as (n & vals & ?). eauto.
Qed.

(** Only nodes of the submitted graph appear in a trace. *)
Lemma started_in_graph tr k :
  execution apply h t tr -> started tr k = true -> in_graph h t k.
Proof.
  induction 1 as [|tr ev Hex IH Hen]; [done|]. intros Hk.
  destruct ev as [j|j o]; simpl in Hk; [|auto].
  destruct (Nat.eqb_spec j k) as [->|Hne]; [by inversion Hen|auto].
Qed.

Lemma resolved_in_graph tr k o :
  execution apply h t tr -> outcome_of tr k = Some o -> in_graph h t k.
Proof.
  induction 1 as [|tr ev Hex IH Hen]; [done|]. intros Hk.
  destruct ev as [j|j o']; simpl in Hk; [auto|].
  destruct (Nat.eqb_spec j k) as [->|Hne]; [|auto].
  inversion Hen; subst; eauto using started_in_graph.
Qed.

(** A value was produced only by running the node. *)
Lemma finished_was_started tr k v :
  execution apply h t tr -> outcome_of tr k = Some (Finished v) ->
  started tr k = true.
Proof.
  induction 1 as [|tr ev Hex IH Hen]; [done|]. intros Hk.
  destruct ev as [j|j o']; simpl in *.
  - rewrite IH by done. by rewrite orb_true_r.
  - destruct (Nat.eqb_spec j k) as [->|Hne]; [|auto].
    injection Hk as ->. by inversion Hen.
Qed.

(** No node is run twice. *)
Lemma executed_at_most_once tr k :
  execution apply h t tr -> executions tr k <= 1.
Proof.
  induction 1 as [|tr ev Hex IH Hen]; simpl; [lia|].
  destruct ev as [j|j o']; [|done].
  destruct (Nat.eqb_spec j k) as [->|Hne]; [|done].
  inversion Hen; subst.
  match goal with H : started _ _ = false |- _ => apply executions_started in H end.
  lia.
Qed.

(** A node is started only after each of its dependencies finished. *)
Lemma start_after_dependency later earlier k j :
  execution apply h t (later ++ Started k :: earlier) ->
  depends h k j ->
  exists v, outcome_of earlier j = Some (Finished v).
Proof.
  intros Hex%execution_suffix (n & Hn & Hj). inversion Hex as [|? ? _ Hen]; subst.
  inversion Hen; subst. simplify_eq. eauto using arg_values_finished.
Qed.

Lemma start_after_dependencies later earlier k j :
  execution apply h t (later ++ Started k :: earlier) ->
  tc (depends h) k j ->
  exists v, outcome_of earlier j = Some (Finished v).
Proof.
  intros Hex Htc. revert later earlier Hex.
  induction Htc as [k j Hd|k i j Hd _ IH]; intros later earlier Hex.
  - eauto using start_after_dependency.
  - destruct (start_after_dependency _ _ _ _ Hex Hd) as [vi Hi].
    pose proof (execution_suffix (later ++ [Started k]) earlier) as Hsuf.
    rewrite <- app_assoc in Hsuf. specialize (Hsuf Hex).
    apply (finished_was_started _ _ _ Hsuf), started_elem, list_elem_of_split in Hi
      as (l1 & l2 & ->).
    destruct (IH l1 l2 Hsuf) as [v Hv]. exists v.
    change (Started i :: l2) with ([Started i] ++ l2).
    rewrite app_assoc. apply outcome_stable_app; [|done].
    by rewrite <- app_assoc.
Qed.

End Executions.

Section Failures.

Variable apply : func -> list pyval -> py pyval.
Variable h : list node.
Variable t : key.

Lemma raised_by_stable tr ev o e :
  enabled apply h t tr ev -> raised_by apply h tr o e -> raised_by apply h (ev :: tr) o e.
Proof.
  intros Hen (Hs & Ho & Hrun). split; [|split; [|done]].
  - destruct ev; simpl; rewrite Hs; by rewrite ?orb_true_r.
  - by eapply outcome_stable.
Qed.

(** A failed node carries the error of a task that really raised it, and
    that task is the node itself or one it depends on. *)
Lemma erred_origin tr k o e :
  execution apply h t tr -> outcome_of tr k = Some (Erred o e) ->
  rtc (depends h) k o /\ raised_by apply h tr o e.
Proof.
  intros Hex. revert k. induction Hex as [|tr ev Hex IH Hen]; [done|].
  intros k Hk.
  assert (Hold : forall k', outcome_of tr k' = Some (Erred o e) ->
                   rtc (depends h) k' o /\ raised_by apply h (ev :: tr) o e).
  { intros k' Hk'. destruct (IH k' Hk'). eauto using raised_by_stable. }
  destruct ev as [j|j o']; simpl in Hk; [auto|].
  destruct (Nat.eqb_spec j k) as [->|Hne]; [|auto]. injection Hk as ->.
  inversion Hen as [|k' n vals worker Hn Hs Hnone Hvals
                    |k' n j o'' e' Hg Hn Hs Hnone Hj Hjo]; subst.
  - rename select (outcome_of_result _ _ = _) into Hres.
    destruct ((apply (fn n) vals worker).1) as [v|e'] eqn:Hrun; [done|].
    simpl in Hres. injection Hres as <- <-. split; [done|].
    split; [done|]. split; [simpl; by rewrite Nat.eqb_refl|eauto].
  - destruct (Hold j Hjo) as [Hpath Hraised]. split; [|done].
    eapply rtc_l; [|done]. by exists n.
Qed.

(** Everything a started node depends on, directly or not, has finished. *)
Lemma started_dependencies_finished tr k j :
  execution apply h t tr -> started tr k = true -> tc (depends h) k j ->
  exists v, outcome_of tr j = Some (Finished v).
Proof.
  intros Hex Hk Htc. induction Htc as [k j (n & Hn & Hj)|k i j (n & Hn & Hi) _ IH].
  - destruct (started_had_values _ _ _ _ _ Hex Hk) as (n' & vals & Hn' & Hvals).
    simplify_eq. eauto using arg_values_finished.
  - destruct (started_had_values _ _ _ _ _ Hex Hk) as (n' & vals & Hn' & Hvals).
    simplify_eq. destruct (arg_values_finished _ _ _ _ Hvals Hi) as [vi Hvi].
    eauto using finished_was_started.
Qed.

Hypothesis Hord : ordered h.
Hypothesis Ht : t < length h.

Lemma in_graph_in_heap k : in_graph h t k -> is_Some (h !! k).
Proof.
  intros Hk%(ordered_rtc _ _ _ Hord). apply lookup_lt_is_Some_2. lia.
Qed.

(** When the scheduler reports completion, every node of the graph is
    resolved. *)
Lemma quiescent_all_resolved tr :
  execution apply h t tr -> quiescent apply h t tr ->
  forall k, in_graph h t k -> is_Some (outcome_of tr k).
Proof.
  intros Hex Hq k. induction (lt_wf k) as [k _ IH]. intros Hg.
  destruct (in_graph_in_heap k Hg) as [n Hn].
  destruct (outcome_of tr k) as [o|] eqn:Hk; [done|]. exfalso.
  assert (Hdeps : forall j, j ∈ node_deps n -> is_Some (outcome_of tr j)).
  { intros j Hj. apply IH; [by apply (Hord _ _ Hn)|].
    eapply rtc_r; [done|]. by exists n. }
  destruct (started tr k) eqn:Hs.
  - destruct (started_had_values _ _ _ _ _ Hex Hs) as (n' & vals & Hn' & Hvals).
    simplify_eq.
    by apply (Hq _ (enabled_finish apply h t tr k n vals (fresh (fun _ => 0))
                      Hn Hs Hk Hvals)).
  - destruct (resolved_deps_cases _ _ Hdeps) as [Hfin|[[o e] Herr]].
    + destruct (arg_values_total tr (args n) Hfin) as [vals Hvals].
      by apply (Hq _ (enabled_start apply h t tr k n vals Hg Hn Hs Hk Hvals)).
    + apply first_erred_some in Herr as (j & Hj & Hjo).
      by apply (Hq _ (enabled_erred apply h t tr k n j o e Hg Hn Hs Hk Hj Hjo)).
Qed.

Lemma all_resolved_quiescent tr :
  execution apply h t tr ->
  (forall k, in_graph h t k -> is_Some (outcome_of tr k)) ->
  quiescent apply h t tr.
Proof.
  intros Hex Hall ev Hen.
  assert (Hg : in_graph h t (event_key ev)).
  { destruct Hen; simpl; eauto using started_in_graph. }
  destruct (Hall _ Hg) as [o Ho]. apply enabled_unresolved in Hen. congruence.
Qed.

End Failures.

(** ** The graph of a terminal value, computed *)

Lemma depends_lookup h k d :
  depends h k d <-> d ∈ match h !! k with Some n => node_deps n | None => [] end.
Proof.
  unfold depends. destruct (h !! k) as [n|].
  - split; [by intros (n' & [= <-] & ?)|eauto].
  - split; [by intros (n' & ? & ?)|by intros ?%elem_of_nil].
Qed.

Lemma wanted_closed h k (wanted : list key) x z :
  ordered h ->
  (forall x, x ∈ wanted -> S k <= x -> forall d, depends h x d -> d ∈ wanted) ->
  rtc (depends h) x z -> k <= z -> x ∈ wanted -> z ∈ wanted.
Proof.
  intros Hord Hinv Hrtc. induction Hrtc as [|x y z Hxy Hyz IH]; [done|].
  intros Hk Hx. apply IH; [done|]. apply (Hinv x); [done| |done].
  pose proof (ordered_rtc _ _ _ Hord Hyz).
  pose proof (ordered_tc _ _ _ Hord (tc_once _ _ _ Hxy)). lia.
Qed.

Lemma reach_down_spec h k (wanted : list key) j :
  ordered h ->
  (forall x, x ∈ wanted -> k <= x -> forall d, depends h x d -> d ∈ wanted) ->
  j ∈ reach_down h k wanted
  <-> j < k /\ exists x, x ∈ wanted /\ rtc (depends h) x j.
Proof.
  intros Hord. revert wanted.
  induction k as [|k IH]; intros wanted Hinv; simpl.
  { split; [by intros ?%elem_of_nil|lia]. }
  case_bool_decide as Hk.
  - rewrite elem_of_app, list_elem_of_singleton, IH; cycle 1.
    { intros x [Hx|Hx]%elem_of_app Hle d Hd.
      - apply depends_lookup in Hx.
        pose proof (ordered_tc _ _ _ Hord (tc_once _ _ _ Hx)). lia.
      - apply elem_of_app. destruct (decide (x = k)) as [->|Hne].
        + left. by apply depends_lookup.
        + right. apply (Hinv x); [done|lia|done]. }
    split.
    + intros [(Hlt & x & [Hx|Hx]%elem_of_app & Hrtc)| ->].
      * split; [lia|]. exists k. split; [done|].
        eapply rtc_l; [|done]. by apply depends_lookup.
      * split; [lia|]. eauto.
      * split; [lia|]. eauto using rtc_refl.
    + intros (Hlt & x & Hx & Hrtc). destruct (decide (j = k)) as [->|Hne]; [by right|].
      left. split; [lia|]. exists x. split; [|done]. apply elem_of_app. by right.
  - rewrite IH; cycle 1.
    { intros x Hx Hle d Hd. apply (Hinv x); [done| |done].
      destruct (decide (x = k)) as [->|]; [done|lia]. }
    split; [intros (? & ?); split; [lia|done]|].
    intros (Hlt & x & Hx & Hrtc). split; [|eauto].
    destruct (decide (j = k)) as [->|]; [|lia]. exfalso. apply Hk.
    by apply (wanted_closed h k wanted x k Hord Hinv Hrtc).
Qed.

Lemma reach_spec h t k :
  ordered h -> k ∈ reach h t <-> in_graph h t k.
Proof.
  intros Hord. unfold reach, in_graph. rewrite reach_down_spec; [|done|].
  - split.
    + by intros (_ & x & ->%list_elem_of_singleton & ?).
    + intros Hrtc. pose proof (ordered_rtc _ _ _ Hord Hrtc).
      split; [lia|]. exists t. split; [by apply list_elem_of_singleton|done].
  - intros x ->%list_elem_of_singleton ?. lia.
Qed.

Lemma tc_depends_reach h j k :
  ordered h -> tc (depends h) j k <-> j <> k /\ k ∈ reach h j.
Proof.
  intros Hord. rewrite reach_spec by done. unfold in_graph. rewrite rtc_tc. split.
  - intros Htc. pose proof (ordered_tc _ _ _ Hord Htc). split; [lia|by right].
  - by intros (Hne & [->|Htc]).
Qed.

(** ** Every execution can be carried on to completion *)

Section Serial.

Variable apply : func -> list pyval -> py pyval.
Variable h : list node.
Variable t : key.
Hypothesis Hord : ordered h.
Hypothesis Ht : t < length h.

Lemma run_upto_invariant n tr0 worker :
  execution apply h t tr0 ->
  execution apply h t (run_upto apply h t n (tr0, worker)).1
  /\ (exists l, (run_upto apply h t n (tr0, worker)).1 = l ++ tr0)
  /\ (forall k, k < n -> in_graph h t k ->
        is_Some (outcome_of (run_upto apply h t n (tr0, worker)).1 k)).
Proof.
  intros Hex0. induction n as [|n (Hex & [l Hl] & Hdone)]; simpl.
  { split; [done|]. split; [by exists []|lia]. }
  destruct (run_upto apply h t n (tr0, worker)) as [tr ww] eqn:Hrun.
  simpl in *.
  case_bool_decide as Hn; cycle 1.
  { simpl. split; [done|]. split; [by exists l|].
    intros k Hk Hg. destruct (decide (k = n)) as [->|]; [|apply Hdone; [lia|done]].
    by apply reach_spec in Hg. }
  apply reach_spec in Hn; [|done].
  destruct (in_graph_in_heap h t Hord Ht n Hn) as [nd Hnd].
  assert (Hold : forall tr', (forall j o, outcome_of tr j = Some o ->
                                          outcome_of tr' j = Some o) ->
            is_Some (outcome_of tr' n) ->
            forall k, k < S n -> in_graph h t k -> is_Some (outcome_of tr' k)).
  { intros tr' Hmono Hnew k Hk Hg. destruct (decide (k = n)) as [->|]; [done|].
    destruct (Hdone k ltac:(lia) Hg) as [o Ho]. rewrite (Hmono _ _ Ho). eauto. }
  unfold run_node. rewrite Hnd. simpl.
  destruct (outcome_of tr n) as [o|] eqn:Hnr.
  { simpl. split; [done|]. split; [by exists l|]. apply Hold; [done|by rewrite Hnr]. }
  destruct (arg_values tr (args nd)) as [vals|] eqn:Hvals.
  - simpl. destruct (started tr n) eqn:Hns.
    + assert (Hen : enabled apply h t tr
                      (Resolved n (outcome_of_result n (apply (fn nd) vals ww).1)))
        by (by eapply enabled_finish).
      split; [by constructor|]. split; [eexists (_ :: l); by rewrite Hl|].
      apply (Hold (Resolved n (outcome_of_result n (apply (fn nd) vals ww).1)
                     :: tr)); [intros; by eapply outcome_stable|].
      simpl. by rewrite Nat.eqb_refl.
    + assert (Hstart : enabled apply h t tr (Started n))
        by (by eapply enabled_start).
      assert (Hen : enabled apply h t (Started n :: tr)
                      (Resolved n (outcome_of_result n (apply (fn nd) vals ww).1))).
      { eapply enabled_finish; [done|simpl; by rewrite Nat.eqb_refl|done|].
        eapply arg_values_mono; [|done]. done. }
      split; [constructor; [by constructor|done]|].
      split; [eexists (_ :: _ :: l); by rewrite Hl|].
      apply (Hold (Resolved n (outcome_of_result n (apply (fn nd) vals ww).1)
                     :: Started n :: tr)); [|simpl; by rewrite Nat.eqb_refl].
      intros j o Hj. eapply outcome_stable; [done|]. by eapply outcome_stable.
  - assert (Hdeps : forall j, j ∈ node_deps nd -> is_Some (outcome_of tr j)).
    { intros j Hj. apply Hdone; [by apply (Hord _ _ Hnd)|].
      eapply rtc_r; [done|]. by exists nd. }
    destruct (resolved_deps_cases _ _ Hdeps) as [Hfin|[[o e] Herr]].
    { destruct (arg_values_total tr (args nd) Hfin) as [? ?]. congruence. }
    rewrite Herr. simpl.
    apply first_erred_some in Herr as (j & Hj & Hjo).
    assert (Hns : started tr n = false).
    { destruct (started tr n) eqn:Hs; [|done].
      destruct (started_had_values _ _ _ _ _ Hex Hs) as (nd' & vals & ? & ?).
      simplify_eq. }
    assert (Hen : enabled apply h t tr (Resolved n (Erred o e)))
      by (by eapply enabled_erred).
    split; [by constructor|]. split; [eexists (_ :: l); by rewrite Hl|].
    apply (Hold (Resolved n (Erred o e) :: tr));
      [intros; by eapply outcome_stable|].
    simpl. by rewrite Nat.eqb_refl.
Qed.

(** From any execution the schedule reaches completion, keeping what
    happened so far. *)
Lemma resume_complete tr worker :
  execution apply h t tr ->
  complete apply h t (resume apply h t tr worker)
  /\ exists l, resume apply h t tr worker = l ++ tr.
Proof.
  intros Hex0.
  destruct (run_upto_invariant (S t) tr worker Hex0) as (Hex & Hl & Hdone).
  split; [|done]. split; [done|]. apply all_resolved_quiescent; [done|].
  intros k Hg. apply Hdone; [|done].
  pose proof (ordered_rtc _ _ _ Hord Hg). lia.
Qed.

Lemma run_complete worker : complete apply h t (run apply h t worker).
Proof. apply resume_complete. constructor. Qed.

End Serial.

(** ** Leaving out the nodes an execution does not need *)

Lemma started_restrict keep tr k :
  started (restrict keep tr) k = keep k && started tr k.
Proof.
  induction tr as [|[j|j o] tr IH]; simpl.
  - by rewrite andb_false_r.
  - destruct (keep j) eqn:Hj; simpl; rewrite IH.
    + destruct (Nat.eqb_spec j k) as [->|]; simpl; [by rewrite Hj|done].
    + destruct (Nat.eqb_spec j k) as [->|]; simpl; [by rewrite Hj|done].
  - by destruct (keep j).
Qed.

Lemma outcome_restrict keep tr k :
  outcome_of (restrict keep tr) k = if keep k then outcome_of tr k else None.
Proof.
  induction tr as [|[j|j o] tr IH]; simpl.
  - by destruct (keep k).
  - by destruct (keep j).
  - destruct (keep j) eqn:Hj; simpl; rewrite IH;
      destruct (Nat.eqb_spec j k) as [->|]; by rewrite ?Hj.
Qed.

Lemma arg_value_agree tr tr' a :
  (forall j, j ∈ arg_deps a -> outcome_of tr' j = outcome_of tr j) ->
  arg_value tr' a = arg_value tr a.
Proof.
  induction a as [v0|d|items IH] using arg_nested_ind; simpl; intros Hag; [done| |].
  - rewrite Hag; [done|by left].
  - replace (map (arg_value tr') items) with (map (arg_value tr) items); [done|].
    apply map_ext_in. intros a Ha%list_elem_of_In. symmetry.
    rewrite Forall_forall in IH. apply IH; [done|]. intros j Hj. apply Hag.
    apply list_elem_of_In, in_flat_map. exists a. by rewrite <- !list_elem_of_In.
Qed.

Lemma arg_values_agree tr tr' actuals :
  (forall j, j ∈ flat_map arg_deps actuals -> outcome_of tr' j = outcome_of tr j) ->
  arg_values tr' actuals = arg_values tr actuals.
Proof.
  intros Hag. unfold arg_values. f_equal. apply map_ext_in.
  intros a Ha%list_elem_of_In. apply arg_value_agree. intros j Hj. apply Hag.
  apply list_elem_of_In, in_flat_map. exists a. by rewrite <- !list_elem_of_In.
Qed.

Lemma restrict_execution apply h t keep tr :
  (forall k d, keep k = true -> depends h k d -> keep d = true) ->
  execution apply h t tr -> execution apply h t (restrict keep tr).
Proof.
  intros Hclosed. induction 1 as [|tr ev Hex IH Hen]; simpl; [constructor|].
  destruct (keep (event_key ev)) eqn:Hkeep; [|done]. constructor; [done|].
  assert (Hvals : forall n, h !! event_key ev = Some n ->
            arg_values (restrict keep tr) (args n) = arg_values tr (args n)).
  { intros n Hn. apply arg_values_agree. intros j Hj.
    rewrite outcome_restrict, (Hclosed (event_key ev) j); [done..|by exists n]. }
  destruct Hen as [k n vals Hg Hn Hs Hnone Hv
                  |k n vals worker Hn Hs Hnone Hv
                  |k n j o e Hg Hn Hs Hnone Hj Hjo]; simpl in *.
  - eapply enabled_start; [done..| | |].
    + by rewrite started_restrict, Hs, andb_false_r.
    + by rewrite outcome_restrict, Hkeep.
    + by rewrite Hvals.
  - eapply enabled_finish; [done| | |].
    + by rewrite started_restrict, Hs, Hkeep.
    + by rewrite outcome_restrict, Hkeep.
    + by rewrite Hvals.
  - eapply enabled_erred; [done..| | |done|].
    + by rewrite started_restrict, Hs, andb_false_r.
    + by rewrite outcome_restrict, Hkeep.
    + rewrite outcome_restrict, (Hclosed k j); [done..|by exists n].
Qed.

(** ** The heap after a successful run, by cases *)

Lemma built_cases h e d0 files sql m h' k nd :
  built h e d0 files sql (length files) m h' ->
  h' !! k = Some nd ->
  (k < length h /\ h !! k = Some nd)
  \/ (length h <= k /\ built_node (length h) e d0 files sql m k nd).
Proof.
  intros Hb Hk. pose proof (lookup_lt_Some _ _ _ Hk) as Hlt.
  rewrite (built_size _ _ _ _ _ _ _ _ Hb) in Hlt.
  destruct (decide (k < length h)) as [Hold|Hnew].
  { left. split; [done|]. by rewrite <- (built_kept _ _ _ _ _ _ _ _ Hb). }
  right. split; [lia|].
  destruct (decide (k < length h + length files)) as [H1|H1].
  { destruct (lookup_lt_is_Some_2 files (k - length h)) as [fname Hf]; [lia|].
    pose proof (built_loads _ _ _ _ _ _ _ _ Hb _ _ Hf) as Hl.
    replace (length h + (k - length h)) with k in Hl by lia.
    simplify_eq. eapply is_load; [|done]. lia. }
  destruct (decide (k = length h + length files)) as [->|H2].
  { pose proof (built_ref _ _ _ _ _ _ _ _ Hb). simplify_eq. by constructor. }
  destruct (decide (k < length h + length files + 1 + length files)) as [H3|H3].
  { pose proof (built_procs _ _ _ _ _ _ _ _ Hb
                  (k - (length h + length files + 1)) ltac:(lia)) as Hl.
    replace (length h + length files + 1 + (k - (length h + length files + 1)))
      with k in Hl by lia.
    simplify_eq. apply is_process; lia. }
  destruct (decide (k < length h + length files + 1 + length files
                        + (length files - 2))) as [H4|H4].
  { pose proof (built_rolls _ _ _ _ _ _ _ _ Hb
                  (k - (length h + length files + 1 + length files))
                  ltac:(lia)) as Hl.
    replace (length h + length files + 1 + length files
             + (k - (length h + length files + 1 + length files)))
      with k in Hl by lia.
    simplify_eq. apply is_roll; lia. }
  destruct (decide (k < length h + length files + 1 + length files
                        + (length files - 2) + m)) as [H5|H5].
  { pose proof (built_pairs _ _ _ _ _ _ _ _ Hb
                  (k - (length h + length files + 1 + length files
                        + (length files - 2))) ltac:(lia)) as Hl.
    replace (length h + length files + 1 + length files + (length files - 2)
             + (k - (length h + length files + 1 + length files
                     + (length files - 2))))
      with k in Hl by lia.
    simplify_eq. apply is_pair; lia. }
  assert (k = length h + length files + 1 + length files
              + (length files - 2) + m) as -> by lia.
  pose proof (built_red _ _ _ _ _ _ _ _ Hb). simplify_eq. by constructor.
Qed.

Lemma built_node_arity b e d0 files sql m k nd :
  built_node b e d0 files sql m k nd -> length (args nd) = arity (fn nd).
Proof. by destruct 1. Qed.

Lemma built_well_called h e d0 files sql m h' :
  built h e d0 files sql (length files) m h' ->
  well_called h -> well_called h'.
Proof.
  intros Hb Hwc k nd Hk.
  destruct (built_cases _ _ _ _ _ _ _ _ _ Hb Hk) as [[_ Hold]|[_ Hnew]].
  - eauto.
  - eauto using built_node_arity.
Qed.

(** A run of [etl] that returns has built the nodes of [built]. *)
Lemma etl_inv files sql m w c :
  (etl files sql m w).1 = Return c ->
  (3 <= length files \/ m = 0)
  /\ c = built_cell (length (heap w)) (length files) m
  /\ built (heap w) (entropy w) (draws w) files sql (length files) m
           (heap (etl files sql m w).2).
Proof.
  intros Hrun.
  destruct (decide (3 <= length files \/ m = 0)) as [Hok|Hbad].
  - destruct (etl_returns files sql m w _ eq_refl Hok) as (w' & Hw' & Hb & _).
    rewrite Hw' in *. simpl in *. by simplify_eq.
  - destruct m as [|m]; [lia|]. rewrite etl_raise in Hrun by lia. done.
Qed.

(** ** Executing the notebook's own task functions *)

Lemma call_none f vals w :
  length vals = arity f -> (call f vals w).1 = Return VNone.
Proof. intros Hlen. by destruct (call_runs_body f vals w Hlen). Qed.

(** With the notebook's task functions, well-called nodes only ever resolve
    to [None]. *)
Lemma notebook_outcome h t tr k o :
  well_called h -> execution call h t tr ->
  outcome_of tr k = Some o -> o = Finished VNone.
Proof.
  intros Hwc Hex. revert k o. induction Hex as [|tr ev Hex IH Hen]; [done|].
  intros k o Hk. destruct ev as [j|j o']; simpl in Hk; [eauto|].
  destruct (Nat.eqb_spec j k) as [->|Hne]; [|eauto]. injection Hk as ->.
  inversion Hen as [|k' n vals worker Hn Hs Hnone Hvals
                    |k' n j o'' e' Hg Hn Hs Hnone Hj Hjo]; subst.
  - rewrite call_none; [done|].
    rewrite (arg_values_length _ _ _ Hvals). by apply (Hwc k).
  - by specialize (IH _ _ Hjo).
Qed.

Lemma notebook_complete h t tr k :
  ordered h -> well_called h -> t < length h ->
  complete call h t tr -> in_graph h t k ->
  outcome_of tr k = Some (Finished VNone)
  /\ started tr k = true
  /\ executions tr k = 1.
Proof.
  intros Hord Hwc Ht [Hex Hq] Hg.
  destruct (quiescent_all_resolved call h t Hord Ht tr Hex Hq k Hg) as [o Ho].
  rewrite (notebook_outcome _ _ _ _ _ Hwc Hex Ho) in Ho.
  pose proof (finished_was_started _ _ _ _ _ _ Hex Ho) as Hs.
  pose proof (executed_at_most_once call h t tr k Hex) as Hle.
  do 2 (split; [done|]).
  destruct (executions tr k) as [|[|?]] eqn:Hn; [|done|lia].
  apply executions_started in Hn. congruence.
Qed.

Lemma unrelated_reach h a b :
  ordered h ->
  bool_decide (b ∈ reach h a) = false ->
  bool_decide (a ∈ reach h b) = false ->
  unrelated h a b.
Proof.
  intros Hord Hab%bool_decide_eq_false Hba%bool_decide_eq_false.
  split; intros Hrtc; [apply Hab|apply Hba]; by apply reach_spec.
Qed.

Lemma reach_in_graph h t k :
  ordered h -> bool_decide (k ∈ reach h t) = true -> in_graph h t k.
Proof. intros Hord Hk%bool_decide_eq_true. by apply reach_spec. Qed.

Lemma reach_tc h j k :
  ordered h -> j <> k -> bool_decide (k ∈ reach h j) = true ->
  tc (depends h) j k.
Proof. intros Hord Hne Hk%bool_decide_eq_true. by apply tc_depends_reach. Qed.

Lemma demo_heap_ordered : ordered demo_heap.
Proof. apply orderedb_ordered. vm_compute. reflexivity. Qed.

Lemma demo_heap_well_called : well_called demo_heap.
Proof. apply well_calledb_well_called. vm_compute. reflexivity. Qed.

Lemma demo_heap_length : length demo_heap = 50.
Proof. vm_compute. reflexivity. Qed.

(** ** Ordering and failure guarantees of a submission *)

Lemma started_app l1 l2 k :
  started (l1 ++ l2) k = started l1 k || started l2 k.
Proof.
  induction l1 as [|[j|j o] l1 IH]; simpl; [done| |done].
  by rewrite IH, orb_assoc.
Qed.

Lemma unresolved_suffix l1 l2 k :
  outcome_of (l1 ++ l2) k = None -> outcome_of l2 k = None.
Proof.
  induction l1 as [|[j|j o] l1 IH]; simpl; [done|done|].
  by destruct (j =? k).
Qed.

(** C6. In every execution of a submitted graph, whatever the task
    functions, a node is started only after each of its dependencies has
    produced a result. And for nodes [a] and [b] with no dependency path
    between them, [a] need not complete before [b] starts: whenever [b] can
    be started at all, there is a complete execution in which, at the moment
    [b] starts, [a] has not completed (it has not even started). As being
    unrelated is symmetric, the same holds with the roles swapped, so
    neither order is imposed. *)
Theorem dependency_order_only apply h t tr :
  composed h ->
  t < length h ->
  execution apply h t tr ->
  (forall later earlier k j,
     tr = later ++ Started k :: earlier -> depends h k j ->
     exists v, Resolved j (Finished v) ∈ earlier)
  /\ (forall a b,
        unrelated h a b -> started tr b = true ->
        exists tr' later earlier,
          complete apply h t tr'
          /\ tr' = later ++ Started b :: earlier
          /\ started earlier a = false
          /\ outcome_of earlier a = None).
Proof.
  intros Hord%composed_ordered Ht Hex. split.
  - intros later earlier k j -> Hd.
    destruct (start_after_dependency _ _ _ _ _ _ _ Hex Hd) as [v Hv].
    exists v. by apply outcome_of_elem.
  - intros a b [_ Hba] Hb.
    set (keep := fun k => bool_decide (k ∈ reach h b)).
    assert (Hkb : keep b = true).
    { apply bool_decide_eq_true, reach_spec; [done|]. apply rtc_refl. }
    assert (Hka : keep a = false).
    { apply bool_decide_eq_false. by rewrite reach_spec. }
    assert (Hex' : execution apply h t (restrict keep tr)).
    { apply restrict_execution; [|done]. intros k d Hk Hd.
      apply bool_decide_eq_true. apply bool_decide_eq_true in Hk.
      rewrite reach_spec in * by done. by eapply rtc_r. }
    assert (Hsb : started (restrict keep tr) b = true)
      by (by rewrite started_restrict, Hkb, Hb).
    assert (Hsa : started (restrict keep tr) a = false)
      by (by rewrite started_restrict, Hka).
    assert (Hoa : outcome_of (restrict keep tr) a = None)
      by (by rewrite outcome_restrict, Hka).
    apply started_elem, list_elem_of_split in Hsb as (l1 & l2 & Hsplit).
    destruct (resume_complete apply h t Hord Ht _ (fresh (fun _ => 0)) Hex')
      as [Hcomplete [l Hl]].
    exists (resume apply h t (restrict keep tr) (fresh (fun _ => 0))),
      (l ++ l1), l2.
    split; [done|]. split; [by rewrite Hl, Hsplit, <- app_assoc|].
    rewrite Hsplit in Hsa, Hoa. split.
    + rewrite started_app in Hsa. apply orb_false_elim in Hsa as [_ Hsa].
      simpl in Hsa. by apply orb_false_elim in Hsa as [_ Hsa].
    + apply unresolved_suffix in Hoa. by simpl in Hoa.
Qed.

Lemma dependency_order_only_witness :
  (exists v, Resolved 0 (Finished v)
             ∈ drop 78 (run call demo_heap 49 demo_world))
  /\ exists tr' later earlier,
       complete call demo_heap 49 tr'
       /\ tr' = later ++ Started 1 :: earlier
       /\ started earlier 0 = false
       /\ outcome_of earlier 0 = None.
Proof.
  pose proof demo_heap_ordered as Hord.
  assert (Hlen : 49 < length demo_heap) by (rewrite demo_heap_length; lia).
  assert (Hex : execution call demo_heap 49 (run call demo_heap 49 demo_world)).
  { by apply run_complete. }
  destruct (dependency_order_only call demo_heap 49 _
              (ordered_composed _ Hord) Hlen Hex) as [Hdeps Hpar].
  split.
  - apply (Hdeps (take 77 (run call demo_heap 49 demo_world)) _ 11 0).
    + vm_compute. reflexivity.
    + eexists. split; [vm_compute; reflexivity|]. vm_compute. left.
  - apply Hpar.
    + apply unrelated_reach; [done|vm_compute; reflexivity..].
    + vm_compute. reflexivity.
Defined.

(** C7. In a completed submission in which the task function of node [k]
    ran and raised [e]: every node of the submitted graph that depends on
    [k], directly or transitively, is marked failed and was never run; every
    failed node, when awaited, raises the error of the task it originates
    from, a task the node is or depends on and that really raised this error;
    and every node of the graph that has no dependency path to a task that
    raised has completed with a value. *)
Theorem failure_propagates apply h t tr k e :
  composed h ->
  t < length h ->
  complete apply h t tr ->
  raised_by apply h tr k e ->
  (forall d, in_graph h t d -> tc (depends h) d k ->
     started tr d = false
     /\ exists o e', outcome_of tr d = Some (Erred o e'))
  /\ (forall d o e',
        outcome_of tr d = Some (Erred o e') ->
        await tr d = Some (Raise e')
        /\ rtc (depends h) d o
        /\ raised_by apply h tr o e')
  /\ (forall b,
        in_graph h t b ->
        (forall o e', rtc (depends h) b o -> ~ raised_by apply h tr o e') ->
        exists v, outcome_of tr b = Some (Finished v)).
Proof.
  intros Hord%composed_ordered Ht [Hex Hq] (Hks & Hko & Hkrun).
  split; [|split].
  - intros d Hg Hdk.
    assert (Hns : started tr d = false).
    { destruct (started tr d) eqn:Hs; [|done].
      destruct (started_dependencies_finished _ _ _ _ _ _ Hex Hs Hdk) as [v Hv].
      congruence. }
    split; [done|].
    destruct (quiescent_all_resolved apply h t Hord Ht tr Hex Hq d Hg) as [[v|o e'] Ho].
    + apply (finished_was_started _ _ _ _ _ _ Hex) in Ho. congruence.
    + eauto.
  - intros d o e' Hd. split; [unfold await; by rewrite Hd|].
    by apply (erred_origin apply h t).
  - intros b Hg Hclean.
    destruct (quiescent_all_resolved apply h t Hord Ht tr Hex Hq b Hg) as [[v|o e'] Ho].
    + eauto.
    + destruct (erred_origin apply h t _ _ _ _ Hex Ho) as [Hpath Hraised].
      by destruct (Hclean o e' Hpath).
Qed.

Lemma failure_propagates_witness :
  (started (run faulty demo_heap 49 demo_world) 49 = false
   /\ exists o e', outcome_of (run faulty demo_heap 49 demo_world) 49
                   = Some (Erred o e'))
  /\ (await (run faulty demo_heap 49 demo_world) 49
      = Some (Raise (TaskError "roll failed")))
  /\ exists v, outcome_of (run faulty demo_heap 49 demo_world) 11
               = Some (Finished v).
Proof.
  pose proof demo_heap_ordered as Hord.
  assert (Hlen : 49 < length demo_heap) by (rewrite demo_heap_length; lia).
  assert (Hraised : raised_by faulty demo_heap
                      (run faulty demo_heap 49 demo_world) 21
                      (TaskError "roll failed")).
  { split; [vm_compute; reflexivity|]. split; [vm_compute; reflexivity|].
    eexists _, [], demo_world. split; vm_compute; reflexivity. }
  destruct (failure_propagates faulty demo_heap 49 _ 21 _
              (ordered_composed _ Hord) Hlen
              (run_complete faulty demo_heap 49 Hord Hlen demo_world) Hraised)
    as (Hdown & Hawait & Hclean).
  split; [|split].
  - apply Hdown.
    + apply reach_in_graph; [done|]. vm_compute. reflexivity.
    + apply reach_tc; [done|lia|]. vm_compute. reflexivity.
  - apply (Hawait 49 21 (TaskError "roll failed")). vm_compute. reflexivity.
  - apply Hclean.
    + apply reach_in_graph; [done|]. vm_compute. reflexivity.
    + intros o e' Hpath%(ordered_rtc _ _ _ Hord) (_ & Ho & _).
      do 12 (destruct o as [|o]; [vm_compute in Ho; discriminate|]). lia.
Defined.

Lemma etl_run_ordered files sql m w c w' :
  etl files sql m w = (Return c, w') -> ordered (heap w) -> ordered (heap w').
Proof.
  intros Hrun Hord. pose proof (etl_ordered files sql m w Hord) as H.
  by rewrite Hrun in H.
Qed.

Lemma etl_run_well_called files sql m w c w' :
  etl files sql m w = (Return c, w') ->
  well_called (heap w) -> well_called (heap w').
Proof.
  intros Hrun Hwc.
  assert (Hc : (etl files sql m w).1 = Return c) by (by rewrite Hrun).
  apply etl_inv in Hc as (_ & _ & Hb). rewrite Hrun in Hb.
  by eapply built_well_called.
Qed.

(** ** The reduction node *)

(** C5. After cell 5 the single reduction node [best] was built from the
    list of all 20 compare nodes and has exactly these 20 dependencies. A
    submission of [best] with the notebook's task functions can complete,
    and in every completed submission the reduction node was run exactly
    once. In every execution, completed or not and whatever the task
    functions, no node is run more than once, and the reduction node is
    started only after all 20 compare nodes have finished. *)
Theorem reduction_runs_once w :
  composed (heap w) ->
  well_called (heap w) ->
  exists c w',
    cell5 w = (Return c, w')
    /\ length (compared c) = 20
    /\ heap w' !! best c
       = Some (Node Reduction [Container (map Deferred (compared c))])
    /\ dependencies (heap w') (best c) = list_to_set (compared c)
    /\ size (dependencies (heap w') (best c)) = 20
    /\ (exists tr, complete call (heap w') (best c) tr)
    /\ (forall tr, complete call (heap w') (best c) tr ->
          executions tr (best c) = 1)
    /\ (forall apply t tr,
          execution apply (heap w') t tr ->
          (forall k, executions tr k <= 1)
          /\ forall later earlier,
               tr = later ++ Started (best c) :: earlier ->
               forall k, k ∈ compared c ->
                 exists v, Resolved k (Finished v) ∈ earlier).
Proof.
  intros Hord%composed_ordered Hwc.
  destruct (cell5_returns w) as (w' & Hrun & Hb & _).
  pose proof (etl_run_ordered _ _ _ _ _ _ Hrun Hord) as Hord'.
  pose proof (etl_run_well_called _ _ _ _ _ _ Hrun Hwc) as Hwc'.
  pose proof (built_red _ _ _ _ _ _ _ _ Hb) as Hbest.
  pose proof (built_size _ _ _ _ _ _ _ _ Hb) as Hsize.
  eexists _, w'. split; [exact Hrun|]. cbn [compared best built_cell].
  assert (Hlt : length (heap w) + 10 + 1 + 10 + (10 - 2) + 20 < length (heap w'))
    by lia.
  split; [by rewrite length_seq|]. split; [exact Hbest|].
  rewrite (dependencies_lookup _ _ _ Hbest), node_deps_reduction.
  split; [done|].
  split; [by rewrite size_list_to_set, length_seq by apply NoDup_seq|].
  split; [eexists; by apply (run_complete call _ _ Hord' Hlt (fresh (fun _ => 0)))|].
  split.
  - intros tr Htr.
    by apply (notebook_complete _ _ _ _ Hord' Hwc' Hlt Htr), rtc_refl.
  - intros apply t tr Hex. split; [intros k; by eapply executed_at_most_once|].
    intros later earlier -> k Hk.
    destruct (start_after_dependency _ _ _ _ _ _ k Hex) as [v Hv].
    { eexists. split; [exact Hbest|]. by rewrite node_deps_reduction. }
    exists v. by apply outcome_of_elem.
Qed.

Lemma reduction_runs_once_witness :
  exists c w',
    cell5 demo_world = (Return c, w')
    /\ size (dependencies (heap w') (best c)) = 20
    /\ (exists tr, complete call (heap w') (best c) tr)
    /\ forall tr, complete call (heap w') (best c) tr ->
                  executions tr (best c) = 1.
Proof.
  destruct (reduction_runs_once demo_world)
    as (c & w' & Hrun & _ & _ & _ & Hsz & Hsome & Honce & _).
  - constructor.
  - intros k n Hk. simpl in Hk. by rewrite lookup_nil in Hk.
  - exists c, w'. auto.
Defined.

(** ** Submitting the same graph again *)

(** C8. For the graph of any successful run of the graph-building cell:
    a submission is an execution started from the empty trace, so a second
    submission of the same terminal value has no result of the first to
    reuse. Whenever both complete, each of them ran every node of the graph
    exactly once, and the nodes run are in both cases exactly the nodes
    reachable from [best] in the unchanged heap, along the same dependency
    edges. *)
Theorem resubmission_reexecutes files sql npairs w c first second :
  composed (heap w) ->
  well_called (heap w) ->
  (etl files sql npairs w).1 = Return c ->
  complete call (heap (etl files sql npairs w).2) (best c) first ->
  complete call (heap (etl files sql npairs w).2) (best c) second ->
  (forall k, in_graph (heap (etl files sql npairs w).2) (best c) k ->
     executions first k = 1 /\ executions second k = 1)
  /\ (forall k, Started k ∈ first
                <-> in_graph (heap (etl files sql npairs w).2) (best c) k)
  /\ (forall k, Started k ∈ second
                <-> in_graph (heap (etl files sql npairs w).2) (best c) k).
Proof.
  intros Hord%composed_ordered Hwc Hrun H1 H2.
  pose proof (etl_ordered files sql npairs w Hord) as Hord'.
  destruct (etl_inv _ _ _ _ _ Hrun) as (_ & -> & Hb).
  pose proof (built_well_called _ _ _ _ _ _ _ Hb Hwc) as Hwc'.
  pose proof (built_size _ _ _ _ _ _ _ _ Hb) as Hsize.
  cbn [best built_cell] in *.
  set (h' := heap (etl files sql npairs w).2) in *.
  set (t := length (heap w) + length files + 1 + length files
            + (length files - 2) + npairs) in *.
  assert (Hlt : t < length h') by lia.
  assert (Hiff : forall tr k,
            complete call h' t tr -> Started k ∈ tr <-> in_graph h' t k).
  { intros tr k Htr. split.
    - intros Hk%elem_started. destruct Htr as [Hex _].
      by eapply started_in_graph.
    - intros Hg. apply started_elem.
      by apply (notebook_complete _ _ _ _ Hord' Hwc' Hlt Htr). }
  split; [|split; intros k; by apply Hiff].
  intros k Hk. split.
  - by apply (notebook_complete _ _ _ _ Hord' Hwc' Hlt H1).
  - by apply (notebook_complete _ _ _ _ Hord' Hwc' Hlt H2).
Qed.

Lemma resubmission_reexecutes_witness :
  executions (run call demo_heap 49 demo_world) 49 = 1
  /\ executions (run call demo_heap 49 (fresh (fun _ => 7))) 49 = 1.
Proof.
  pose proof demo_heap_ordered as Hord.
  assert (Hlen : 49 < length demo_heap) by (rewrite demo_heap_length; lia).
  destruct (resubmission_reexecutes (filenames 10) "sql://mytable" 20 demo_world
              (built_cell 0 10 20)
              (run call demo_heap 49 demo_world)
              (run call demo_heap 49 (fresh (fun _ => 7))))
    as (Hboth & _ & _).
  - constructor.
  - intros k n Hk. simpl in Hk. by rewrite lookup_nil in Hk.
  - vm_compute. reflexivity.
  - exact (run_complete call demo_heap 49 Hord Hlen demo_world).
  - exact (run_complete call demo_heap 49 Hord Hlen (fresh (fun _ => 7))).
  - apply (Hboth 49). apply rtc_refl.
Defined.

(** ** The value of the terminal future *)

Lemma plain_bodies_return_none a b c w :
  (Plain.load a w).1 = Return VNone
  /\ (Plain.load_from_sql a w).1 = Return VNone
  /\ (Plain.process a b w).1 = Return VNone
  /\ (Plain.roll a b c w).1 = Return VNone
  /\ (Plain.compare a b w).1 = Return VNone
  /\ (Plain.reduction a w).1 = Return VNone.
Proof. repeat split. Qed.

(** C9. Each of the six task functions returns [None] on every input, in
    every state of the interpreter. Hence for every graph the cell builds,
    whatever the file names, the SQL address and the random draws, a
    submission of [best] can complete, and in every completed submission
    awaiting the future of [best] yields [None]. *)
Theorem terminal_future_none files sql npairs w c :
  composed (heap w) ->
  well_called (heap w) ->
  (etl files sql npairs w).1 = Return c ->
  (forall a b c0 w0,
     (Plain.load a w0).1 = Return VNone
     /\ (Plain.load_from_sql a w0).1 = Return VNone
     /\ (Plain.process a b w0).1 = Return VNone
     /\ (Plain.roll a b c0 w0).1 = Return VNone
     /\ (Plain.compare a b w0).1 = Return VNone
     /\ (Plain.reduction a w0).1 = Return VNone)
  /\ (exists tr, complete call (heap (etl files sql npairs w).2) (best c) tr)
  /\ (forall tr,
        complete call (heap (etl files sql npairs w).2) (best c) tr ->
        await tr (best c) = Some (Return VNone)).
Proof.
  intros Hord%composed_ordered Hwc Hrun.
  split; [intros; apply plain_bodies_return_none|].
  pose proof (etl_ordered files sql npairs w Hord) as Hord'.
  destruct (etl_inv _ _ _ _ _ Hrun) as (_ & -> & Hb).
  pose proof (built_well_called _ _ _ _ _ _ _ Hb Hwc) as Hwc'.
  pose proof (built_size _ _ _ _ _ _ _ _ Hb) as Hsize.
  cbn [best built_cell].
  assert (Hlt : length (heap w) + length files + 1 + length files
                + (length files - 2) + npairs
                < length (heap (etl files sql npairs w).2)) by lia.
  split.
  - eexists. by apply (run_complete call _ _ Hord' Hlt (fresh (fun _ => 0))).
  - intros tr Htr. unfold await.
    destruct (notebook_complete _ _ _ _ Hord' Hwc' Hlt Htr (rtc_refl _ _))
      as (-> & _). done.
Qed.

Lemma terminal_future_none_witness :
  await (run call demo_heap 49 demo_world) 49 = Some (Return VNone).
Proof.
  pose proof demo_heap_ordered as Hord.
  assert (Hlen : 49 < length demo_heap) by (rewrite demo_heap_length; lia).
  destruct (terminal_future_none (filenames 10) "sql://mytable" 20 demo_world
              (built_cell 0 10 20)) as (_ & _ & Hnone).
  - constructor.
  - intros k n Hk. simpl in Hk. by rewrite lookup_nil in Hk.
  - vm_compute. reflexivity.
  - apply Hnone. exact (run_complete call demo_heap 49 Hord Hlen demo_world).
Defined.

(** ** The reference node *)

Lemma built_reference_upstream h e d0 files sql m h' k nd :
  built h e d0 files sql (length files) m h' ->
  0 < m -> 3 <= length files ->
  built_node (length h) e d0 files sql m k nd ->
  fn nd <> Load -> fn nd <> Load_from_sql ->
  tc (depends h') k (length h + length files).
Proof.
  intros Hb Hm Hn Hk Hnl Hnr.
  assert (Hproc : forall i, i < length files ->
            tc (depends h') (length h + length files + 1 + i)
               (length h + length files)).
  { intros i Hi. apply tc_once. eexists. split; [by apply (built_procs _ _ _ _ _ _ _ _ Hb)|].
    rewrite node_deps_process. right. left. }
  assert (Hroll : forall i, i < length files - 2 ->
            tc (depends h') (length h + length files + 1 + length files + i)
               (length h + length files)).
  { intros i Hi. eapply tc_l; [|apply (Hproc i); lia].
    eexists. split; [by apply (built_rolls _ _ _ _ _ _ _ _ Hb)|].
    rewrite node_deps_roll. left. }
  assert (Hpair : forall j, j < m ->
            tc (depends h')
               (length h + length files + 1 + length files
                + (length files - 2) + j)
               (length h + length files)).
  { intros j Hj.
    assert (Hin : pick e (seq (length h + length files + 1 + length files)
                              (length files - 2)) (d0 + 2 * j)
                  ∈ seq (length h + length files + 1 + length files)
                        (length files - 2))
      by (apply pick_in, seq_nonempty; lia).
    apply list_elem_of_lookup in Hin as [i Hi]. apply lookup_seq in Hi as [Hi Hlt].
    eapply tc_l; [|apply (Hroll i Hlt)].
    eexists. split; [by apply (built_pairs _ _ _ _ _ _ _ _ Hb)|].
    rewrite node_deps_pair, Hi. left. }
  destruct Hk as [i fname -> Hf| ->|i -> Hi|i -> Hi|j -> Hj| ->];
    [done|done|auto..|].
  eapply tc_l; [|apply (Hpair 0 Hm)].
  eexists. split; [by apply (built_red _ _ _ _ _ _ _ _ Hb)|].
  rewrite node_deps_reduction, Nat.add_0_r. destruct m; [lia|left].
Qed.

(** C10. In the graph of every successful run of the cell that samples at
    least one pair (as cell 5 and cell 9 do): [reference] is the one node
    the cell creates with [load_from_sql]; every node the cell creates other
    than a loader, that is every process, roll and compare node and the
    reduction node [best], depends on [reference], directly or transitively;
    and in every execution of any submission from this heap, whatever the
    task functions, such a node is started only after [reference] has
    finished. *)
Theorem reference_upstream files sql npairs w c :
  composed (heap w) ->
  0 < npairs ->
  (etl files sql npairs w).1 = Return c ->
  heap (etl files sql npairs w).2 !! reference c
  = Some (Node Load_from_sql [Concrete (VStr sql)])
  /\ fn <$> heap (etl files sql npairs w).2 !! best c = Some Reduction
  /\ (forall k nd,
        length (heap w) <= k ->
        heap (etl files sql npairs w).2 !! k = Some nd ->
        fn nd = Load_from_sql -> k = reference c)
  /\ (forall k nd,
        length (heap w) <= k ->
        heap (etl files sql npairs w).2 !! k = Some nd ->
        fn nd <> Load -> fn nd <> Load_from_sql ->
        tc (depends (heap (etl files sql npairs w).2)) k (reference c)
        /\ forall apply t tr later earlier,
             execution apply (heap (etl files sql npairs w).2) t tr ->
             tr = later ++ Started k :: earlier ->
             exists v, Resolved (reference c) (Finished v) ∈ earlier).
Proof.
  intros Hord Hm Hrun. destruct (etl_inv _ _ _ _ _ Hrun) as (Hok & -> & Hb).
  assert (Hn : 3 <= length files) by lia.
  cbn [reference best built_cell].
  split; [by apply (built_ref _ _ _ _ _ _ _ _ Hb)|].
  split; [by rewrite (built_red _ _ _ _ _ _ _ _ Hb)|].
  split.
  - intros k nd Hk Hnd Hfn.
    destruct (built_cases _ _ _ _ _ _ _ _ _ Hb Hnd) as [[? _]|[_ Hkind]]; [lia|].
    by destruct Hkind.
  - intros k nd Hk Hnd Hnl Hnr.
    destruct (built_cases _ _ _ _ _ _ _ _ _ Hb Hnd) as [[? _]|[_ Hkind]]; [lia|].
    pose proof (built_reference_upstream _ _ _ _ _ _ _ _ _ Hb Hm Hn Hkind Hnl Hnr)
      as Htc.
    split; [done|]. intros apply t tr later earlier Hex ->.
    destruct (start_after_dependencies _ _ _ _ _ _ _ Hex Htc) as [v Hv].
    exists v. by apply outcome_of_elem.
Qed.

Lemma reference_upstream_witness :
  tc (depends demo_heap) 49 10
  /\ exists v, Resolved 10 (Finished v)
               ∈ drop 2 (run call demo_heap 49 demo_world).
Proof.
  pose proof demo_heap_ordered as Hord.
  assert (Hlen : 49 < length demo_heap) by (rewrite demo_heap_length; lia).
  destruct (reference_upstream (filenames 10) "sql://mytable" 20 demo_world
              (built_cell 0 10 20)) as (_ & _ & _ & Hup).
  - constructor.
  - lia.
  - vm_compute. reflexivity.
  - destruct (Hup 49 (reduction_node (seq 29 20))) as [Htc Hbefore].
    + simpl. lia.
    + vm_compute. reflexivity.
    + discriminate.
    + discriminate.
    + split; [exact Htc|].
      apply (Hbefore call 49 (run call demo_heap 49 demo_world)
               [Resolved 49 (Finished VNone)]).
      * exact (proj1 (run_complete call demo_heap 49 Hord Hlen demo_world)).
      * vm_compute. reflexivity.
Defined.

(** * Further properties of the notebook's code *)

(** ** The plain task functions (cell 2) *)






(** ** When the graph-building cell fails *)

(** X2. The graph-building cell raises exactly when it is given fewer than
    three files and asked for at least one pair: nothing is rolled, and the
    first [random.choice] finds [rolled] empty. The exception is then
    IndexError; by that time the loaders, the reference and the process
    nodes have been created, and nothing else: no roll, compare or reduction
    node, no draw consumed. *)
Theorem etl_raises files sql npairs w :
  ((etl files sql npairs w).1 = Raise IndexError
   <-> length files < 3 /\ 0 < npairs)
  /\ (forall e,
        (etl files sql npairs w).1 = Raise e ->
        e = IndexError
        /\ (etl files sql npairs w).2
           = World (heap w ++ loaded_nodes (length (heap w)) files sql)
                   (entropy w) (draws w) (slept w)
        /\ length (heap (etl files sql npairs w).2)
           = length (heap w) + 2 * length files + 1).
Proof.
  destruct (decide (3 <= length files \/ npairs = 0)) as [Hok|Hbad].
  - rewrite etl_ok by done. simpl. split; [|done].
    split; [done|]. lia.
  - destruct npairs as [|m]; [lia|]. rewrite etl_raise by lia. simpl.
    split; [split; [lia|done]|].
    intros e [= <-]. do 2 (split; [done|]).
    unfold loaded_nodes.
    rewrite !length_app, !length_map, length_seq. simpl. lia.
Qed.

Lemma etl_raises_witness :
  (etl (filenames 2) "sql://mytable" 20 demo_world).1 = Raise IndexError
  /\ length (heap (etl (filenames 2) "sql://mytable" 20 demo_world).2) = 5
  /\ draws (etl (filenames 2) "sql://mytable" 20 demo_world).2 = 0.
Proof.
  destruct (etl_raises (filenames 2) "sql://mytable" 20 demo_world)
    as [Hiff Hstate].
  assert (Hraise : (etl (filenames 2) "sql://mytable" 20 demo_world).1
                   = Raise IndexError).
  { apply Hiff. rewrite length_filenames. lia. }
  destruct (Hstate _ Hraise) as (_ & Hw & Hlen).
  split; [exact Hraise|]. split.
  - rewrite Hlen, length_filenames. reflexivity.
  - rewrite Hw. reflexivity.
Defined.

(** ** What a successful run creates *)

Lemma bound_keys_built b n m :
  bound_keys (built_cell b n m) = seq b (n + 1 + n + (n - 2) + m + 1).
Proof.
  unfold bound_keys, built_cell. simpl.
  rewrite !seq_app. simpl. rewrite <- !app_assoc. simpl.
  by rewrite !Nat.add_assoc.
Qed.

(** X3. When the graph-building cell returns, the names it binds ([data],
    [reference], [processed], [rolled], [compared], [best], in this order)
    hold exactly the keys of the nodes it created, each once and in creation
    order: [n] loaders, one reference, [n] process nodes, [n - 2] roll nodes,
    [npairs] compare nodes and one reduction node for [n] files. Building
    consumed exactly two draws per pair and did not sleep. *)
Theorem etl_creates files sql npairs w c :
  (etl files sql npairs w).1 = Return c ->
  bound_keys c
  = seq (length (heap w))
        (length (heap (etl files sql npairs w).2) - length (heap w))
  /\ length (data c) = length files
  /\ length (processed c) = length files
  /\ length (rolled c) = length files - 2
  /\ length (compared c) = npairs
  /\ length (heap (etl files sql npairs w).2)
     = length (heap w) + (2 * length files + (length files - 2) + npairs + 2)
  /\ draws (etl files sql npairs w).2 = draws w + 2 * npairs
  /\ slept (etl files sql npairs w).2 = slept w
  /\ entropy (etl files sql npairs w).2 = entropy w.
Proof.
  intros Hrun. destruct (etl_inv _ _ _ _ _ Hrun) as (Hok & -> & Hb).
  pose proof (built_size _ _ _ _ _ _ _ _ Hb) as Hsize.
  rewrite (etl_ok files sql npairs w Hok) in *. simpl in *.
  rewrite bound_keys_built, !length_seq.
  split; [f_equal; lia|]. do 4 (split; [done|]).
  split; [lia|done].
Qed.

Lemma etl_creates_witness :
  length (rolled (built_cell 0 100 200)) = 98
  /\ length (compared (built_cell 0 100 200)) = 200
  /\ length (heap (cell9 demo_world).2) = 500
  /\ draws (cell9 demo_world).2 = 400.
Proof.
  destruct (etl_creates (filenames 100) "sql://mytable" 200 demo_world
              (built_cell 0 100 200))
    as (_ & _ & _ & Hrolled & Hcompared & Hheap & Hdraws & _).
  - vm_compute. reflexivity.
  - rewrite length_filenames in *.
    split; [exact Hrolled|]. split; [exact Hcompared|].
    split; [exact Hheap|exact Hdraws].
Defined.

(** ** The stages of the pipeline *)

Lemma pick_roll e b n d :
  3 <= n ->
  exists i, i < n - 2 /\ pick e (seq b (n - 2)) d = b + i.
Proof.
  intros Hn.
  assert (Hin : pick e (seq b (n - 2)) d ∈ seq b (n - 2))
    by (apply pick_in, seq_nonempty; lia).
  apply list_elem_of_lookup in Hin as [i Hi]. apply lookup_seq in Hi as [Hi Hlt].
  eauto.
Qed.

Lemma built_layered h e d0 files sql m h' k nd d :
  built h e d0 files sql (length files) m h' ->
  3 <= length files \/ m = 0 ->
  length h <= k ->
  h' !! k = Some nd ->
  d ∈ node_deps nd ->
  exists nd',
    h' !! d = Some nd'
    /\ length h <= d
    /\ d < k
    /\ feeds (fn nd') (fn nd) = true.
Proof.
  intros Hb Hok Hk Hnd Hd.
  destruct (built_cases _ _ _ _ _ _ _ _ _ Hb Hnd) as [[? _]|[_ Hkind]]; [lia|].
  destruct Hkind as [i fname -> Hf| ->|i -> Hi|i -> Hi|j -> Hj| ->].
  - by apply elem_of_nil in Hd.
  - by apply elem_of_nil in Hd.
  - rewrite node_deps_process in Hd. in_cases Hd.
    + destruct (lookup_lt_is_Some_2 files i Hi) as [fname Hf].
      eexists. split; [by apply (built_loads _ _ _ _ _ _ _ _ Hb)|].
      split; [lia|]. split; [lia|done].
    + eexists. split; [by apply (built_ref _ _ _ _ _ _ _ _ Hb)|].
      split; [lia|]. split; [lia|done].
  - rewrite node_deps_roll in Hd.
    assert (Hproc : forall i', i' < length files ->
              exists nd',
                h'
                  !! (length h + length files + 1 + i') = Some nd'
                /\ fn nd' = Process).
    { intros i' Hi'. eexists. split; [by apply (built_procs _ _ _ _ _ _ _ _ Hb)|done]. }
    in_cases Hd.
    + destruct (Hproc i ltac:(lia)) as (nd' & Hnd' & Hfn).
      exists nd'. rewrite Hfn. split; [done|]. split; [lia|]. split; [lia|done].
    + destruct (Hproc (i + 1) ltac:(lia)) as (nd' & Hnd' & Hfn).
      exists nd'. rewrite Hfn. split; [done|]. split; [lia|]. split; [lia|done].
    + destruct (Hproc (i + 2) ltac:(lia)) as (nd' & Hnd' & Hfn).
      exists nd'. rewrite Hfn. split; [done|]. split; [lia|]. split; [lia|done].
  - rewrite node_deps_pair in Hd.
    assert (Hn : 3 <= length files) by lia.
    assert (Hroll : forall dr,
              exists nd',
                h'
                  !! pick (e)
                       (seq (length h + length files + 1 + length files)
                            (length files - 2)) dr = Some nd'
                /\ length h
                   <= pick (e)
                        (seq (length h + length files + 1 + length files)
                             (length files - 2)) dr
                   < length h + length files + 1 + length files
                     + (length files - 2)
                /\ fn nd' = Roll).
    { intros dr.
      destruct (pick_roll (e)
                  (length h + length files + 1 + length files)
                  (length files) dr Hn) as (i & Hi & ->).
      eexists. split; [by apply (built_rolls _ _ _ _ _ _ _ _ Hb)|].
      split; [lia|done]. }
    in_cases Hd.
    + destruct (Hroll (d0 + 2 * j)) as (nd' & Hnd' & Hrange & Hfn).
      exists nd'. rewrite Hfn. split; [done|]. split; [lia|]. split; [lia|done].
    + destruct (Hroll (d0 + 2 * j + 1)) as (nd' & Hnd' & Hrange & Hfn).
      exists nd'. rewrite Hfn. split; [done|]. split; [lia|]. split; [lia|done].
  - rewrite node_deps_reduction in Hd.
    apply list_elem_of_lookup in Hd as [j Hj]. apply lookup_seq in Hj as [-> Hj].
    eexists. split; [by apply (built_pairs _ _ _ _ _ _ _ _ Hb)|].
    split; [lia|]. split; [lia|done].
Qed.

(** X4. In the graph a successful run builds, data flows through the stages
    only: every dependency of a node the cell created is itself a node this
    cell created, earlier, by the function of the preceding stage. Process
    nodes consume loaders and the reference, roll nodes consume process
    nodes, compare nodes consume roll nodes, the reduction consumes compare
    nodes, and loaders and the reference consume nothing. *)
Theorem etl_layered files sql npairs w c k nd d :
  (etl files sql npairs w).1 = Return c ->
  length (heap w) <= k ->
  heap (etl files sql npairs w).2 !! k = Some nd ->
  d ∈ node_deps nd ->
  exists nd',
    heap (etl files sql npairs w).2 !! d = Some nd'
    /\ length (heap w) <= d
    /\ d < k
    /\ feeds (fn nd') (fn nd) = true.
Proof.
  intros Hrun Hk Hnd Hd. destruct (etl_inv _ _ _ _ _ Hrun) as (Hok & _ & Hb).
  by eapply built_layered.
Qed.

Lemma etl_layered_witness :
  exists nd',
    heap (cell5 demo_world).2 !! 21 = Some nd'
    /\ 0 <= 21 /\ 21 < 29
    /\ feeds (fn nd') Compare = true.
Proof.
  apply (etl_layered (filenames 10) "sql://mytable" 20 demo_world
           (built_cell 0 10 20) 29
           (Node Compare [Deferred 21; Deferred 22]) 21).
  - vm_compute. reflexivity.
  - simpl. lia.
  - vm_compute. reflexivity.
  - left.
Defined.

Lemma list_to_set_two (a b : nat) : list_to_set [a; b] =@{gset nat} {[a; b]}.
Proof.
  apply set_eq. intros x.
  rewrite elem_of_list_to_set, !elem_of_cons, elem_of_nil, !elem_of_union,
    !elem_of_singleton. tauto.
Qed.

(** X5. In the graph a successful run builds, the [i]-th file is loaded by
    the [i]-th loader, and the [i]-th process node was built from that
    loader and the reference: these two are its dependencies. No other node
    of the heap consumes the loader: each loaded dataset is cleaned exactly
    once. *)
Theorem etl_process_stage files sql npairs w c i d :
  composed (heap w) ->
  (etl files sql npairs w).1 = Return c ->
  data c !! i = Some d ->
  exists fname p,
    files !! i = Some fname
    /\ heap (etl files sql npairs w).2 !! d
       = Some (Node Load [Concrete (VStr fname)])
    /\ processed c !! i = Some p
    /\ heap (etl files sql npairs w).2 !! p
       = Some (Node Process [Deferred d; Deferred (reference c)])
    /\ dependencies (heap (etl files sql npairs w).2) p = {[d; reference c]}
    /\ size (dependencies (heap (etl files sql npairs w).2) p) = 2
    /\ forall k, depends (heap (etl files sql npairs w).2) k d -> k = p.
Proof.
  intros Hord%composed_ordered Hrun Hd.
  destruct (etl_inv _ _ _ _ _ Hrun) as (Hok & Hc & Hb). subst c.
  cbn [data processed reference built_cell] in *.
  apply lookup_seq in Hd as [-> Hi].
  destruct (lookup_lt_is_Some_2 files i Hi) as [fname Hf].
  pose proof (built_loads _ _ _ _ _ _ _ _ Hb _ _ Hf) as Hload.
  pose proof (built_procs _ _ _ _ _ _ _ _ Hb i Hi) as Hproc.
  exists fname, (length (heap w) + length files + 1 + i).
  split; [done|]. split; [done|].
  split; [by rewrite lookup_seq_lt by lia|]. split; [done|].
  rewrite (dependencies_lookup _ _ _ Hproc), node_deps_process.
  split; [apply list_to_set_two|].
  split.
  { rewrite size_list_to_set_two. destruct (decide _); [lia|done]. }
  intros k (nd & Hnd & Hin).
  destruct (decide (k < length (heap w))) as [Hold|Hnew].
  - destruct (built_cases _ _ _ _ _ _ _ _ _ Hb Hnd) as [[_ Hk]|[? _]]; [|lia].
    specialize (Hord _ _ Hk _ Hin). lia.
  - assert (Hge : length (heap w) <= k) by lia.
    destruct (built_layered _ _ _ _ _ _ _ _ _ _ Hb Hok Hge Hnd Hin)
      as (nd' & Hnd' & _ & _ & Hfeeds).
    rewrite Hload in Hnd'. injection Hnd' as <-.
    destruct (built_cases _ _ _ _ _ _ _ _ _ Hb Hnd) as [[? _]|[_ Hkind]]; [lia|].
    destruct Hkind as [i' fname' Heq Hf'|Heq|j Heq Hj|i' Heq Hi'|j Heq Hj|Heq];
      try discriminate Hfeeds.
    rewrite node_deps_process in Hin.
    apply elem_of_cons in Hin as [Hin|Hin]; [lia|].
    apply elem_of_cons in Hin as [Hin|Hin]; [lia|].
    by apply elem_of_nil in Hin.
Qed.

Lemma etl_process_stage_witness :
  exists fname p,
    filenames 10 !! 3 = Some fname
    /\ processed (built_cell 0 10 20) !! 3 = Some p
    /\ size (dependencies (heap (cell5 demo_world).2) p) = 2
    /\ forall k, depends (heap (cell5 demo_world).2) k 3 -> k = p.
Proof.
  destruct (etl_process_stage (filenames 10) "sql://mytable" 20 demo_world
              (built_cell 0 10 20) 3 3)
    as (fname & p & Hf & _ & Hp & _ & _ & Hsize & Honly).
  - constructor.
  - vm_compute. reflexivity.
  - vm_compute. reflexivity.
  - exists fname, p. auto.
Defined.

(** X6. In the graph a successful run builds, the roll node at position [i]
    consumes the processed item at position [j] exactly when [j] lies in its
    window, [i <= j <= i + 2]. So a processed item feeds at most three roll
    nodes, the first and the last item feed one, and with at least three
    files every processed item is rolled at least once. *)
Theorem etl_roll_windows files sql npairs w c :
  (etl files sql npairs w).1 = Return c ->
  (forall i j r p,
     rolled c !! i = Some r -> processed c !! j = Some p ->
     depends (heap (etl files sql npairs w).2) r p <-> i <= j <= i + 2)
  /\ (3 <= length files ->
      forall j p,
        processed c !! j = Some p ->
        exists i r,
          rolled c !! i = Some r
          /\ depends (heap (etl files sql npairs w).2) r p).
Proof.
  intros Hrun. destruct (etl_inv _ _ _ _ _ Hrun) as (Hok & -> & Hb).
  cbn [rolled processed built_cell].
  assert (Hwin : forall i j,
            i < length files - 2 ->
            depends (heap (etl files sql npairs w).2)
              (length (heap w) + length files + 1 + length files + i)
              (length (heap w) + length files + 1 + j)
            <-> i <= j <= i + 2).
  { intros i j Hi. pose proof (built_rolls _ _ _ _ _ _ _ _ Hb i Hi) as Hr. split.
    - intros (nd & Hnd & Hin). rewrite Hr in Hnd. injection Hnd as <-.
      rewrite node_deps_roll in Hin.
      apply elem_of_cons in Hin as [Hin|Hin]; [lia|].
      apply elem_of_cons in Hin as [Hin|Hin]; [lia|].
      apply elem_of_cons in Hin as [Hin|Hin]; [lia|].
      by apply elem_of_nil in Hin.
    - intros Hj. eexists. split; [exact Hr|]. rewrite node_deps_roll.
      destruct (decide (j = i)) as [->|]; [left|].
      destruct (decide (j = i + 1)) as [->|]; [right; left|].
      replace j with (i + 2) by lia. right. right. left. }
  split.
  - intros i j r p [-> Hi]%lookup_seq [-> Hj]%lookup_seq. by apply Hwin.
  - intros Hn j p [-> Hj]%lookup_seq.
    eexists (Nat.min j (length files - 3)), _.
    split; [apply lookup_seq_lt; lia|]. apply Hwin; lia.
Qed.

Lemma etl_roll_windows_witness :
  (depends (heap (cell5 demo_world).2) 21 11 <-> 0 <= 0 <= 0 + 2)
  /\ exists i r,
       rolled (built_cell 0 10 20) !! i = Some r
       /\ depends (heap (cell5 demo_world).2) r 20.
Proof.
  destruct (etl_roll_windows (filenames 10) "sql://mytable" 20 demo_world
              (built_cell 0 10 20)) as [Hwin Hcover].
  - vm_compute. reflexivity.
  - split.
    + apply (Hwin 0 0 21 11); vm_compute; reflexivity.
    + apply (Hcover ltac:(rewrite length_filenames; lia) 9 20).
      vm_compute. reflexivity.
Defined.

(** ** Which roll nodes are submitted *)

(** X7. In the graph a successful run builds, a roll node belongs to the
    graph of [best] exactly when one of the [2 * npairs] draws of the
    sampling loop picked it. A roll node that was never picked is therefore
    not part of what is submitted: in no execution of [best] is it started
    or resolved. *)
Theorem etl_sampled_rolls files sql npairs w c i r :
  composed (heap w) ->
  (etl files sql npairs w).1 = Return c ->
  rolled c !! i = Some r ->
  (in_graph (heap (etl files sql npairs w).2) (best c) r
   <-> exists d, d < 2 * npairs
                 /\ pick (entropy w) (rolled c) (draws w + d) = r)
  /\ forall apply tr,
       execution apply (heap (etl files sql npairs w).2) (best c) tr ->
       (forall d, d < 2 * npairs ->
                  pick (entropy w) (rolled c) (draws w + d) <> r) ->
       started tr r = false /\ outcome_of tr r = None.
Proof.
  intros Hord%composed_ordered Hrun Hr.
  pose proof (etl_ordered files sql npairs w Hord) as Hord'.
  destruct (etl_inv _ _ _ _ _ Hrun) as (Hok & -> & Hb).
  cbn [rolled best built_cell] in *. apply lookup_seq in Hr as [-> Hi].
  assert (Hn : 3 <= length files) by lia.
  pose proof (built_red _ _ _ _ _ _ _ _ Hb) as Hbest.
  assert (Hiff :
    in_graph (heap (etl files sql npairs w).2)
      (length (heap w) + length files + 1 + length files
       + (length files - 2) + npairs)
      (length (heap w) + length files + 1 + length files + i)
    <-> exists d, d < 2 * npairs
          /\ pick (entropy w)
               (seq (length (heap w) + length files + 1 + length files)
                    (length files - 2)) (draws w + d)
             = length (heap w) + length files + 1 + length files + i).
  { split.
    - intros [Heq|(y & (nd & Hnd & Hy) & Hrtc)]%rtc_inv; [lia|].
      rewrite Hbest in Hnd. injection Hnd as <-.
      rewrite node_deps_reduction in Hy.
      apply list_elem_of_lookup in Hy as [j Hj]. apply lookup_seq in Hj as [-> Hj].
      apply rtc_inv in Hrtc as [Heq|(z & (nd & Hnd & Hz) & Hrtc)]; [lia|].
      rewrite (built_pairs _ _ _ _ _ _ _ _ Hb j Hj) in Hnd. injection Hnd as <-.
      rewrite node_deps_pair in Hz.
      assert (Hend : forall dr,
                rtc (depends (heap (etl files sql npairs w).2))
                  (pick (entropy w)
                     (seq (length (heap w) + length files + 1 + length files)
                          (length files - 2)) dr)
                  (length (heap w) + length files + 1 + length files + i) ->
                pick (entropy w)
                  (seq (length (heap w) + length files + 1 + length files)
                       (length files - 2)) dr
                = length (heap w) + length files + 1 + length files + i).
      { intros dr Hpath.
        destruct (pick_roll (entropy w)
                    (length (heap w) + length files + 1 + length files)
                    (length files) dr Hn) as (i' & Hi' & Hpick).
        rewrite Hpick in *.
        apply rtc_inv in Hpath as [Heq|(z' & (nd & Hnd & Hz') & Hpath)]; [done|].
        rewrite (built_rolls _ _ _ _ _ _ _ _ Hb i' Hi') in Hnd.
        injection Hnd as <-. rewrite node_deps_roll in Hz'.
        apply (ordered_rtc _ _ _ Hord') in Hpath.
        apply elem_of_cons in Hz' as [Hz'|Hz']; [lia|].
        apply elem_of_cons in Hz' as [Hz'|Hz']; [lia|].
        apply elem_of_cons in Hz' as [Hz'|Hz']; [lia|].
        by apply elem_of_nil in Hz'. }
      apply elem_of_cons in Hz as [->|Hz].
      { exists (2 * j). split; [lia|]. by apply Hend. }
      apply elem_of_cons in Hz as [->|Hz]; [|by apply elem_of_nil in Hz].
      exists (2 * j + 1). split; [lia|]. rewrite Nat.add_assoc. by apply Hend.
    - intros (d & Hd & Hpick).
      assert (Hj : d / 2 < npairs) by (apply Nat.Div0.div_lt_upper_bound; lia).
      pose proof (Nat.div_mod_eq d 2) as Hdm.
      pose proof (Nat.mod_upper_bound d 2 ltac:(lia)) as Hmod.
      eapply rtc_l.
      { eexists. split; [exact Hbest|]. rewrite node_deps_reduction.
        apply list_elem_of_lookup. exists (d / 2). by apply lookup_seq_lt. }
      eapply rtc_l; [|apply rtc_refl].
      eexists. split; [by apply (built_pairs _ _ _ _ _ _ _ _ Hb)|].
      rewrite node_deps_pair, <- Hpick.
      destruct (d mod 2) as [|[|?]] eqn:Hm; [| |lia].
      + replace (draws w + d) with (draws w + 2 * (d / 2)) by lia. left.
      + replace (draws w + d) with (draws w + 2 * (d / 2) + 1) by lia.
        right. left. }
  split; [exact Hiff|].
  intros apply tr Hex Hnever.
  assert (Hout : ~ in_graph (heap (etl files sql npairs w).2)
                   (length (heap w) + length files + 1 + length files
                    + (length files - 2) + npairs)
                   (length (heap w) + length files + 1 + length files + i)).
  { intros (d & Hd & Hpick)%Hiff. by apply (Hnever d). }
  split.
  - destruct (started tr _) eqn:Hs; [|done].
    destruct Hout. by eapply started_in_graph.
  - destruct (outcome_of tr _) as [o|] eqn:Ho; [|done].
    destruct Hout. by eapply resolved_in_graph.
Qed.

Lemma etl_sampled_rolls_witness :
  ~ in_graph (heap (cell5 (fresh (fun _ => 0))).2) 49 22
  /\ started (run call (heap (cell5 (fresh (fun _ => 0))).2) 49 demo_world) 22
     = false.
Proof.
  destruct (etl_sampled_rolls (filenames 10) "sql://mytable" 20
              (fresh (fun _ => 0)) (built_cell 0 10 20) 1 22)
    as [Hiff Hexec].
  - constructor.
  - vm_compute. reflexivity.
  - vm_compute. reflexivity.
  - assert (Hnever : forall d, d < 2 * 20 ->
              pick (entropy (fresh (fun _ => 0)))
                   (rolled (built_cell 0 10 20))
                   (draws (fresh (fun _ => 0)) + d) <> 22).
    { intros d _. vm_compute. discriminate. }
    split.
    + intros (d & Hd & Hpick)%Hiff. by apply (Hnever d).
    + apply (Hexec call); [|exact Hnever].
      apply run_complete.
      * apply orderedb_ordered. vm_compute. reflexivity.
      * vm_compute. lia.
Defined.

(** ** The draws a build depends on *)

Lemma built_nodes_ext e1 e2 d0 b files sql m :
  (forall d, d0 <= d < d0 + 2 * m -> e1 d = e2 d) ->
  built_nodes e1 d0 b files sql m = built_nodes e2 d0 b files sql m.
Proof.
  intros Hag. unfold built_nodes. cbv zeta. do 2 f_equal.
  f_equal. apply map_ext_in. intros j Hj%in_seq.
  unfold pair_node, pick. by rewrite !Hag by lia.
Qed.

(** X8. The graph-building cell reads the random source only through the
    [2 * npairs] draws of its sampling loop. Started from the same nodes and
    the same position in two random sources that agree on these draws, it
    binds the same names, builds the same nodes and ends at the same
    position, whether it returns or raises: with a seeded source the graph
    can be reproduced exactly. *)
Theorem etl_reproducible files sql npairs w1 w2 :
  heap w1 = heap w2 ->
  draws w1 = draws w2 ->
  (forall d, draws w1 <= d < draws w1 + 2 * npairs ->
             entropy w1 d = entropy w2 d) ->
  (etl files sql npairs w1).1 = (etl files sql npairs w2).1
  /\ heap (etl files sql npairs w1).2 = heap (etl files sql npairs w2).2
  /\ draws (etl files sql npairs w1).2 = draws (etl files sql npairs w2).2.
Proof.
  intros Hheap Hdraws Hag.
  destruct (decide (3 <= length files \/ npairs = 0)) as [Hok|Hbad].
  - rewrite !etl_ok by done. simpl. rewrite <- Hheap, <- Hdraws.
    by rewrite (built_nodes_ext _ _ _ _ _ _ _ Hag).
  - destruct npairs as [|m]; [lia|]. rewrite !etl_raise by lia. simpl.
    by rewrite Hheap, Hdraws.
Qed.

Lemma etl_reproducible_witness :
  (cell5 demo_world).1
  = (cell5 (fresh (fun d => if d <? 40 then d else 7))).1
  /\ heap (cell5 demo_world).2
     = heap (cell5 (fresh (fun d => if d <? 40 then d else 7))).2.
Proof.
  destruct (etl_reproducible (filenames 10) "sql://mytable" 20 demo_world
              (fresh (fun d => if d <? 40 then d else 7)))
    as (Hcell & Hheap & _).
  - reflexivity.
  - reflexivity.
  - intros d Hd. simpl in *.
    destruct (Nat.ltb_spec d 40) as [_|Hge]; [reflexivity|lia].
  - split; [exact Hcell|exact Hheap].
Defined.

(** ** Building a second graph *)

Lemma etl_extends files sql npairs w :
  exists l, heap (etl files sql npairs w).2 = heap w ++ l.
Proof.
  destruct (decide (3 <= length files \/ npairs = 0)) as [Hok|Hbad].
  - rewrite etl_ok by done. simpl. eauto.
  - destruct npairs as [|m]; [lia|]. rewrite etl_raise by lia. simpl. eauto.
Qed.

(** X9. Running the graph-building cell again, as cell 9 does after cell 5,
    leaves every existing node as it was, so the graph of every earlier
    deferred value keeps exactly its nodes and edges; and the graph of the
    new [best] shares no node with the earlier heap. This holds for the
    existing nodes also when the second run raises. *)
Theorem etl_keeps_earlier_graphs files sql npairs w t :
  composed (heap w) ->
  t < length (heap w) ->
  (forall k, k < length (heap w) ->
     heap (etl files sql npairs w).2 !! k = heap w !! k)
  /\ (forall k, in_graph (heap (etl files sql npairs w).2) t k
                <-> in_graph (heap w) t k)
  /\ (forall c k,
        (etl files sql npairs w).1 = Return c ->
        in_graph (heap (etl files sql npairs w).2) (best c) k ->
        length (heap w) <= k < length (heap (etl files sql npairs w).2)).
Proof.
  intros Hord%composed_ordered Ht.
  destruct (etl_extends files sql npairs w) as [l Hl].
  assert (Hkept : forall k, k < length (heap w) ->
            heap (etl files sql npairs w).2 !! k = heap w !! k).
  { intros k Hk. by rewrite Hl, lookup_app_l. }
  split; [exact Hkept|]. split.
  - intros k. unfold in_graph. split.
    + intros Hrtc. revert Ht.
      induction Hrtc as [|x y z (nd & Hnd & Hy) _ IH]; intros Hx; [done|].
      rewrite Hkept in Hnd by done.
      pose proof (Hord _ _ Hnd _ Hy).
      eapply rtc_l; [by exists nd|]. apply IH. lia.
    + intros Hrtc. revert Ht.
      induction Hrtc as [|x y z (nd & Hnd & Hy) _ IH]; intros Hx; [done|].
      pose proof (Hord _ _ Hnd _ Hy).
      eapply rtc_l; [exists nd; by rewrite Hkept|]. apply IH. lia.
  - intros c k Hrun Hrtc.
    pose proof (etl_ordered files sql npairs w Hord) as Hord'.
    pose proof (ordered_rtc _ _ _ Hord' Hrtc) as Hle.
    destruct (etl_inv _ _ _ _ _ Hrun) as (Hok & Hc & Hb).
    pose proof (built_size _ _ _ _ _ _ _ _ Hb) as Hsize.
    assert (Hbest : length (heap w) <= best c) by (subst c; simpl; lia).
    assert (Hlt : best c < length (heap (etl files sql npairs w).2))
      by (subst c; simpl; lia).
    split; [|lia]. clear Hlt Hle. revert Hbest. unfold in_graph in Hrtc.
    induction Hrtc as [|x y z (nd & Hnd & Hy) _ IH]; intros Hx; [done|].
    apply IH.
    by destruct (built_layered _ _ _ _ _ _ _ _ _ _ Hb Hok Hx Hnd Hy)
      as (_ & _ & ? & _).
Qed.

Lemma etl_keeps_earlier_graphs_witness :
  (in_graph (heap (cell9 (cell5 demo_world).2).2) 49 10
   <-> in_graph (heap (cell5 demo_world).2) 49 10)
  /\ heap (cell9 (cell5 demo_world).2).2 !! 49
     = heap (cell5 demo_world).2 !! 49.
Proof.
  destruct (etl_keeps_earlier_graphs (filenames 100) "sql://mytable" 200
              (cell5 demo_world).2 49) as (Hkept & Hgraph & _).
  - apply ordered_composed, demo_heap_ordered.
  - rewrite demo_heap_length. lia.
  - split; [apply Hgraph|]. apply Hkept. rewrite demo_heap_length. lia.
Defined.

(** ** The file names *)

Lemma string_length_app (s t : string) :
  String.length (s +:+ t) = String.length s + String.length t.
Proof. induction s as [|a s IH]; simpl; [done|]. by rewrite IH. Qed.

Lemma string_app_inv_tail (s1 s2 t : string) :
  s1 +:+ t = s2 +:+ t -> s1 = s2.
Proof.
  revert s2. induction s1 as [|a s1 IH]; intros [|b s2] Heq; simpl in Heq.
  - done.
  - apply (f_equal String.length) in Heq. simpl in Heq.
    rewrite !string_length_app in Heq. simpl in Heq. lia.
  - apply (f_equal String.length) in Heq. simpl in Heq.
    rewrite !string_length_app in Heq. simpl in Heq. lia.
  - injection Heq as -> Heq. f_equal. by apply IH.
Qed.

Lemma decimal_inj (i j : nat) :
  NilEmpty.string_of_uint (Nat.to_uint i)
  = NilEmpty.string_of_uint (Nat.to_uint j) -> i = j.
Proof.
  intros Heq. apply (f_equal NilEmpty.uint_of_string) in Heq.
  rewrite !NilEmpty.usu in Heq. injection Heq as Heq.
  apply (f_equal Nat.of_uint) in Heq. by rewrite !DecimalNat.Unsigned.of_to in Heq.
Qed.

Lemma NoDup_map_inj {A B} (f : A -> B) (l : list A) :
  (forall x y, f x = f y -> x = y) -> NoDup l -> NoDup (map f l).
Proof.
  intros Hinj. induction 1 as [|x l Hx _ IH]; simpl; constructor; [|done].
  intros (y & Hy & Hin)%list_elem_of_In%in_map_iff.
  apply Hinj in Hy as ->. by apply list_elem_of_In in Hin.
Qed.

(** X10. The comprehension that names the files gives [n] names, one per
    index, that are pairwise different: no two loaders of a cell are given
    the same file. *)
Theorem filenames_distinct n :
  length (filenames n) = n
  /\ NoDup (filenames n)
  /\ forall i j name,
       filenames n !! i = Some name -> filenames n !! j = Some name -> i = j.
Proof.
  assert (Hnd : NoDup (filenames n)).
  { unfold filenames, range. apply NoDup_map_inj; [|apply NoDup_seq].
    intros i j Heq. apply (inj (String.append "mydata-")) in Heq.
    apply string_app_inv_tail in Heq. by apply decimal_inj. }
  split; [apply length_filenames|]. split; [done|].
  intros i j name Hi Hj. by eapply NoDup_lookup.
Qed.

Lemma filenames_distinct_witness :
  NoDup (filenames 10)
  /\ forall j, filenames 10 !! j = Some "mydata-3.dat" -> 3 = j.
Proof.
  destruct (filenames_distinct 10) as (_ & Hnd & Hinj).
  split; [exact Hnd|]. intros j Hj.
  apply (Hinj 3 j "mydata-3.dat"); [reflexivity|exact Hj].
Defined.

(** ** Calls match the signatures *)

(** X11. Every node a successful run creates records a call with exactly as
    many arguments as its function has parameters: one for [load],
    [load_from_sql] and [reduction], two for [process] and [compare], three
    for [roll]. Running the function of such a node on that many values
    therefore never raises a TypeError; it returns [None]. *)
Theorem etl_calls_match files sql npairs w c k nd :
  (etl files sql npairs w).1 = Return c ->
  length (heap w) <= k ->
  heap (etl files sql npairs w).2 !! k = Some nd ->
  length (args nd) = arity (fn nd)
  /\ forall vals worker,
       length vals = length (args nd) ->
       (call (fn nd) vals worker).1 = Return VNone.
Proof.
  intros Hrun Hk Hnd. destruct (etl_inv _ _ _ _ _ Hrun) as (_ & _ & Hb).
  destruct (built_cases _ _ _ _ _ _ _ _ _ Hb Hnd) as [[? _]|[_ Hkind]]; [lia|].
  pose proof (built_node_arity _ _ _ _ _ _ _ _ Hkind) as Har.
  split; [done|]. intros vals worker Hlen. apply call_none. congruence.
Qed.

Lemma etl_calls_match_witness :
  length (args (Node Roll [Deferred 11; Deferred 12; Deferred 13])) = 3
  /\ (call Roll [VNone; VNone; VNone] demo_world).1 = Return VNone.
Proof.
  destruct (etl_calls_match (filenames 10) "sql://mytable" 20 demo_world
              (built_cell 0 10 20) 21
              (Node Roll [Deferred 11; Deferred 12; Deferred 13]))
    as [Har Hcall].
  - vm_compute. reflexivity.
  - simpl. lia.
  - vm_compute. reflexivity.
  - split; [exact Har|]. apply Hcall. reflexivity.
Defined.
